(** * Wayback source of xurlfind3r: a shallow embedding and its properties

    The development follows [pkg/xurlfind3r/sources/wayback/wayback.go].

    - Part 1 embeds the pure helpers: the two regular expressions of [Run],
      the line scanner behind [getWaybackURLs], and the three fetchers
      [getWaybackURLs], [getWaybackSnapshots] and [getWaybackContent].
    - Part 2 embeds [Source.Run] as an interleaving state machine: one
      producer goroutine, the dispatching goroutine, and one goroutine per
      URL, communicating through the two unbuffered channels and sharing the
      captured variable [domain].

    Go strings are byte strings; they are modelled by [string], whose
    characters are the bytes.  Collaborators that live outside the file
    (the HTTP client, [encoding/json], [sources.IsInScope] and the two
    expanders) are the fields of the class [Environment]. *)

From Stdlib Require Import ZArith NArith List String Ascii Bool Lia.
From stdpp Require Import base list strings.
Import ListNotations.

Local Open Scope string_scope.
Local Open Scope list_scope.
Local Open Scope stdpp_scope.

(** ** Bytes and strings *)

Definition byte (c : ascii) : N := N_of_ascii c.

Definition LF : ascii := "010"%char.
Definition CR : ascii := "013"%char.
Definition dquote : ascii := "034"%char.

(** [strings.HasPrefix] and [strings.Contains]. *)
Fixpoint HasPrefix (s prefix : string) {struct prefix} : bool :=
  match prefix with
  | EmptyString => true
  | String p prefix' =>
      match s with
      | EmptyString => false
      | String c s' => Ascii.eqb c p && HasPrefix s' prefix'
      end
  end.

Fixpoint Contains (s substr : string) : bool :=
  HasPrefix s substr ||
  match s with
  | EmptyString => false
  | String _ s' => Contains s' substr
  end.

(** [TrimPrefix s prefix] is [Some rest] when [s = prefix ++ rest]. *)
Fixpoint TrimPrefix (s prefix : string) {struct prefix} : option string :=
  match prefix with
  | EmptyString => Some s
  | String p prefix' =>
      match s with
      | EmptyString => None
      | String c s' => if Ascii.eqb c p then TrimPrefix s' prefix' else None
      end
  end.

Fixpoint rev_append (s acc : string) : string :=
  match s with
  | EmptyString => acc
  | String c s' => rev_append s' (String c acc)
  end.

Definition nonEmpty (s : string) : bool :=
  match s with EmptyString => false | String _ _ => true end.

(** ** The regular expressions of [Run]

    Go's [regexp] works on the runes of the UTF-8 decoding of its input, an
    undecodable byte counting as one rune of width 1.  Every ASCII byte
    starts a rune of its own, so both patterns can be matched on bytes; the
    rune structure only matters for the [.] of [robotsURLsRegex] and for
    the two letters whose case-folding orbit leaves ASCII. *)

Definition inRange (lo hi : N) (c : ascii) : bool :=
  (lo <=? byte c)%N && (byte c <=? hi)%N.

(** Width of the first rune of [s], as [utf8.DecodeRuneInString] reports it
    (0 on the empty string, 1 on an invalid or truncated encoding). *)
Definition runeWidth (s : string) : nat :=
  match s with
  | EmptyString => 0
  | String c0 s1 =>
      let b := byte c0 in
      if (b <? 128)%N then 1
      else if (b <? 194)%N || (244 <? b)%N then 1
      else if (b <? 224)%N then
        match s1 with
        | String c1 _ => if inRange 128 191 c1 then 2 else 1
        | _ => 1
        end
      else if (b <? 240)%N then
        match s1 with
        | String c1 (String c2 _) =>
            if inRange (if (b =? 224)%N then 160 else 128)
                       (if (b =? 237)%N then 159 else 191) c1
               && inRange 128 191 c2
            then 3 else 1
        | _ => 1
        end
      else
        match s1 with
        | String c1 (String c2 (String c3 _)) =>
            if inRange (if (b =? 240)%N then 144 else 128)
                       (if (b =? 244)%N then 143 else 191) c1
               && inRange 128 191 c2 && inRange 128 191 c3
            then 4 else 1
        | _ => 1
        end
  end.

Fixpoint skip (n : nat) (s : string) : string :=
  match n, s with
  | S n', String _ s' => skip n' s'
  | _, _ => s
  end.

Definition toLower (c : ascii) : ascii :=
  if inRange 65 90 c then ascii_of_N (byte c + 32) else c.

Definition toUpper (c : ascii) : ascii :=
  if inRange 97 122 c then ascii_of_N (byte c - 32) else c.

Fixpoint ToLower (s : string) : string :=
  match s with
  | EmptyString => EmptyString
  | String c s' => String (toLower c) (ToLower s')
  end.

(** One literal [p] of a pattern compiled with [(?i)]: the runes of the
    [unicode.SimpleFold] orbit of [p].  For an ASCII letter that is the
    letter in both cases, plus U+017F (bytes C5 BF) for [s] and U+212A
    (bytes E2 84 AA) for [k]. *)
Definition foldRune (p : ascii) (s : string) : option string :=
  match s with
  | EmptyString => None
  | String c s' =>
      if Ascii.eqb c p || Ascii.eqb c (toUpper p) || Ascii.eqb c (toLower p)
      then Some s'
      else if Ascii.eqb (toLower p) "s"
      then TrimPrefix s (String "197" (String "191" EmptyString))
      else if Ascii.eqb (toLower p) "k"
      then TrimPrefix s (String "226" (String "132" (String "170" EmptyString)))
      else None
  end.

Fixpoint foldPrefix (pat s : string) {struct pat} : option string :=
  match pat with
  | EmptyString => Some s
  | String p pat' =>
      match foldRune p s with
      | Some s' => foldPrefix pat' s'
      | None => None
      end
  end.

(** The alternation of [mediaURLRegex], in the order of the source. *)
Definition mediaExtensions : list string :=
  [ "apng"; "bpm"; "png"; "bmp"; "gif"; "heif"; "ico"; "cur"; "jpg"; "jpeg";
    "jfif"; "pjp"; "pjpeg"; "psd"; "raw"; "svg"; "tif"; "tiff"; "webp"; "xbm";
    "3gp"; "aac"; "flac"; "mpg"; "mpeg"; "mp3"; "mp4"; "m4a"; "m4v"; "m4p";
    "oga"; "ogg"; "ogv"; "mov"; "wav"; "webm"; "eot"; "woff"; "woff2"; "ttf";
    "otf" ].

(** [(?:\?|#|$)] at the start of [s]. *)
Definition mediaEnd (s : string) : bool :=
  match s with
  | EmptyString => true
  | String c _ => Ascii.eqb c "?" || Ascii.eqb c "#"
  end.

(** The whole pattern anchored at the start of [s]. *)
Definition mediaAt (s : string) : bool :=
  match s with
  | String c s' =>
      Ascii.eqb c "." &&
      existsb (fun ext => match foldPrefix ext s' with
                          | Some rest => mediaEnd rest
                          | None => false
                          end) mediaExtensions
  | EmptyString => false
  end.

(** [mediaURLRegex.MatchString]: the pattern is not anchored, a match may
    start anywhere. *)
Fixpoint mediaURLRegex (URL : string) : bool :=
  mediaAt URL ||
  match URL with
  | EmptyString => false
  | String _ rest => mediaURLRegex rest
  end.

(** A URL whose extension is on the list, whatever the case of its letters,
    and is followed by the end of the string, a question mark or a hash. *)
Definition hasMediaExtension (URL : string) : Prop :=
  exists pre ext rest,
    URL = pre +:+ "." +:+ ext +:+ rest /\
    In (ToLower ext) mediaExtensions /\
    (rest = EmptyString \/
     exists rest', rest = "?" +:+ rest' \/ rest = "#" +:+ rest').

Fixpoint allBytes (f : ascii -> bool) (s : string) : bool :=
  match s with
  | EmptyString => true
  | String c s' => f c && allBytes f s'
  end.

(** The negated class of [robotsURLsRegex]: any rune but space and double
    quote. *)
Definition notSpaceQuote (c : ascii) : bool :=
  negb (Ascii.eqb c " ") && negb (Ascii.eqb c dquote).

(** [/robots.txt$] at the start of [s]; the dot of the pattern is not
    escaped and stands for one rune other than a line feed. *)
Definition robotsEnd (s : string) : bool :=
  match TrimPrefix s "/robots" with
  | Some (String c _ as t) =>
      negb (Ascii.eqb c LF) && String.eqb (skip (runeWidth t) t) "txt"
  | _ => false
  end.

(** Zero or more runes of the class, then [/robots.txt$], at the start of
    [s]. *)
Fixpoint robotsRest (s : string) : bool :=
  robotsEnd s ||
  match s with
  | EmptyString => false
  | String c s' => notSpaceQuote c && robotsRest s'
  end.

(** [://], one or more runes of the class, then [/robots.txt$], at the
    start of [s]. *)
Definition robotsAuthority (s : string) : bool :=
  match TrimPrefix s "://" with
  | Some (String c s') => notSpaceQuote c && robotsRest s'
  | _ => false
  end.

(** [robotsURLsRegex.MatchString]. *)
Definition robotsURLsRegex (URL : string) : bool :=
  match TrimPrefix URL "http" with
  | Some r =>
      robotsAuthority r ||
      match TrimPrefix r "s" with
      | Some r' => robotsAuthority r'
      | None => false
      end
  | None => false
  end.

(** ** Line scanning: [bufio.Scanner] with [bufio.ScanLines]

    [getWaybackURLs] scans the body with a default [bufio.Scanner].  Its
    buffer grows up to [MaxScanTokenSize] bytes; when that many bytes of one
    line are buffered and none is a line feed, [Scan] stops with
    [ErrTooLong].  Lines read before that point have already been handed
    out.  Reading from a [bytes.Reader] cannot fail otherwise. *)

Definition error := string.

Definition MaxScanTokenSize : N := 65536.
Definition ErrTooLong : error := "bufio.Scanner: token too long".

Definition rev (s : string) : string := rev_append s EmptyString.

(** [dropCR]: a line loses one trailing carriage return. *)
Fixpoint dropCR (data : string) : string :=
  match data with
  | EmptyString => EmptyString
  | String c EmptyString => if Ascii.eqb c CR then EmptyString else data
  | String c rest => String c (dropCR rest)
  end.

(** [scanLines input line n]: the tokens of the successive [Scan] calls and
    the final [scanner.Err()], when [input] is still unread and the [n]
    bytes of the current line read so far are [line], last byte first. *)
Fixpoint scanLines (input line : string) (n : N) : list string * option error :=
  match input with
  | EmptyString =>
      (if (n =? 0)%N then [] else [dropCR (rev line)], None)
  | String c rest =>
      if Ascii.eqb c LF then
        let '(tokens, err) := scanLines rest EmptyString 0 in
        (dropCR (rev line) :: tokens, err)
      else if (MaxScanTokenSize <=? n + 1)%N then ([], Some ErrTooLong)
      else scanLines rest (String c line) (n + 1)
  end.

(** ** The fetchers *)

(** What the code reads of a [fasthttp.Response]. *)
Record Response := { ContentLength : Z; Body : string }.

(** A timestamp and the original URL: the [[2]string] of the source. *)
Definition Snapshot : Type := string * string.

Definition snapshotNotFoundFingerprint : string :=
  "This page can't be displayed. Please use the correct URL address to access".

(** The three request URLs, as [fmt.Sprintf] builds them. *)
Definition indexReqURL (domain : string) : string :=
  "http://web.archive.org/cdx/search/cdx?url=" +:+ domain
  +:+ "/*&output=txt&fl=original&collapse=urlkey".

Definition snapshotsReqURL (URL : string) : string :=
  "https://web.archive.org/cdx/search/cdx?url=" +:+ URL
  +:+ "&output=json&fl=timestamp,original&collapse=digest".

Definition contentReqURL (timestamp URL : string) : string :=
  "https://web.archive.org/web/" +:+ timestamp +:+ "if_/" +:+ URL.

(** The package [sources]: the fields of [Configuration] that [Run] reads,
    and [URL]. *)
Module sources.
Record Configuration := {
  IncludeSubdomains : bool;
  ParseWaybackRobots : bool;
  ParseWaybackSource : bool
}.
Record URL := { Source : string; Value : string }.
End sources.
Import sources.

(** The collaborators that live outside the file: [httpclient.SimpleGet]
    (the response, or the transport error), [json.Unmarshal] into a
    [[][2]string] (the decoded value, which may be partly filled when
    decoding fails, and the error), [sources.IsInScope], and the values
    received from the channels that the two expanders return. *)
Class Environment := {
  SimpleGet : string -> Response + error;
  jsonUnmarshal : string -> list Snapshot * option error;
  IsInScope : string -> string -> bool -> bool;
  parseWaybackRobots : Configuration -> string -> list string;
  parseWaybackSource : string -> string -> list string
}.

Section Fetchers.

Context {env : Environment}.

(** [limiter.Wait()] only delays the caller and is left out. *)

Definition getWaybackURLs (domain : string) : list string * option error :=
  let reqURL := indexReqURL domain in
  match SimpleGet reqURL with
  | inr err => ([], Some err)
  | inl res =>
      let '(tokens, err) := scanLines (Body res) EmptyString 0 in
      (List.filter nonEmpty tokens, err)
  end.

Definition getWaybackSnapshots (URL : string) : list Snapshot * option error :=
  let reqURL := snapshotsReqURL URL in
  match SimpleGet reqURL with
  | inr err => ([], Some err)
  | inl res =>
      if (ContentLength res =? 0)%Z then ([], None)
      else
        match jsonUnmarshal (Body res) with
        | (snapshots, Some err) => (snapshots, Some err)
        | (snapshots, None) =>
            if (length snapshots <? 2)%nat then (snapshots, None)
            else (skipn 1 snapshots, None)
        end
  end.

Definition getWaybackContent (snapshot : Snapshot) : string * option error :=
  let '(timestamp, URL) := snapshot in
  let reqURL := contentReqURL timestamp URL in
  match SimpleGet reqURL with
  | inr err => (EmptyString, Some err)
  | inl res =>
      let content := Body res in
      if negb (nonEmpty content) then (content, None)
      else if Contains content snapshotNotFoundFingerprint
      then (content, Some snapshotNotFoundFingerprint)
      else (content, None)
  end.

End Fetchers.

(** ** [Source.Run]

    [Run] starts one goroutine that closes the output channel when it is
    done (the dispatcher).  The dispatcher starts the producer, which
    rewrites the captured variable [domain], fetches the index and sends its
    non-empty URLs on the unbuffered channel [waybackURLs]; for every URL it
    receives, the dispatcher adds one to the wait group and starts a
    goroutine (a unit); it then waits for the wait group and returns.

    The goroutines are interleaved by a scheduler: a [Choice] names the
    goroutine that moves.  The consumer of the output channel is taken to be
    always ready to receive, and an expander is represented by the finite
    sequence of values it sends before closing its channel. *)

(** [source.Name()]. *)
Definition Name : string := "wayback".

Inductive Expander := Robots | Sources.

Definition suffix (k : Expander) : string :=
  match k with Robots => ":robots" | Sources => ":source" end.

(** What a unit does that another party can observe. *)
Inductive Action :=
| ActScope (URL domain : string) (includeSubdomains : bool)
    (* a call of sources.IsInScope with these arguments *)
| ActSend (u : sources.URL)
    (* a value sent on URLsChannel *)
| ActRobots (URL : string)
    (* a call of parseWaybackRobots(config, URL) *)
| ActSource (domain URL : string).
    (* a call of parseWaybackSource(domain, URL) *)

(** The control points of the goroutine started for one URL.  [seen] holds
    the values already taken from the expander's channel, [todo] the values
    still to come. *)
Inductive Unit :=
| UScope (URL : string)
| USendBase (URL : string)
| UExpand (URL : string)
| ULoop (k : Expander) (URL : string) (seen todo : list string)
| ULoopSend (k : Expander) (URL : string) (seen : list string)
    (found : string) (todo : list string)
| UDone (URL : string).

Definition unitURL (u : Unit) : string :=
  match u with
  | UScope URL | USendBase URL | UExpand URL | ULoop _ URL _ _
  | ULoopSend _ URL _ _ _ | UDone URL => URL
  end.

Definition isDone (u : Unit) : bool :=
  match u with UDone _ => true | _ => false end.

Inductive Producer :=
| PRewrite                        (* before the rewrite of domain *)
| PFetch                          (* before getWaybackURLs(domain) *)
| PLoop (results : list string)   (* in the loop, these results left *)
| PClosed.                        (* returned, waybackURLs closed *)

Inductive Dispatcher :=
| DRange     (* ranging over waybackURLs *)
| DWait      (* in wg.Wait() *)
| DClosed.   (* returned, URLsChannel closed *)

Record State := {
  domain : string;               (* the captured variable *)
  producer : Producer;
  dispatcher : Dispatcher;
  units : list Unit;             (* in the order they were started *)
  wg : Z;                        (* the counter of the wait group *)
  trace : list (nat * Action)    (* who did what, oldest first *)
}.

Inductive Choice := RunProducer | RunDispatcher | RunUnit (i : nat).

Definition base (URL : string) : sources.URL :=
  {| Source := Name; Value := URL |}.

Definition expansion (k : Expander) (found : string) : sources.URL :=
  {| Source := Name +:+ suffix k; Value := found |}.

(** The records among some actions. *)
Definition sends (acts : list Action) : list sources.URL :=
  flat_map (fun a => match a with ActSend r => [r] | _ => [] end) acts.

Section Run.

Context {env : Environment}.

(** The arguments of [Run]. *)
Variable config : Configuration.
Variable domain0 : string.

(** Which expander the body of a unit reaches for [URL], after the base
    record has been sent. *)
Definition selects (URL : string) : option Expander :=
  if negb (ParseWaybackRobots config) && negb (ParseWaybackSource config)
  then None
  else if mediaURLRegex URL then None
  else if ParseWaybackRobots config && robotsURLsRegex URL then Some Robots
  else if ParseWaybackSource config && negb (robotsURLsRegex URL)
  then Some Sources
  else None.

Definition expand (dom : string) (k : Expander) (URL : string) : list string :=
  match k with
  | Robots => parseWaybackRobots config URL
  | Sources => parseWaybackSource dom URL
  end.

Definition call (dom : string) (k : Expander) (URL : string) : Action :=
  match k with
  | Robots => ActRobots URL
  | Sources => ActSource dom URL
  end.

(** One step of a unit; [dom] is the value of [domain] it reads. *)
Definition ustep (dom : string) (u : Unit) : option (Unit * list Action) :=
  let sub := IncludeSubdomains config in
  match u with
  | UScope URL =>
      Some (if IsInScope URL dom sub then USendBase URL else UDone URL,
            [ActScope URL dom sub])
  | USendBase URL =>
      Some (UExpand URL, [ActSend (base URL)])
  | UExpand URL =>
      match selects URL with
      | None => Some (UDone URL, [])
      | Some k => Some (ULoop k URL [] (expand dom k URL), [call dom k URL])
      end
  | ULoop k URL seen [] =>
      Some (UDone URL, [])
  | ULoop k URL seen (found :: todo) =>
      (* the check is made on URL, not on the value received *)
      Some (if IsInScope URL dom sub
            then ULoopSend k URL seen found todo
            else ULoop k URL (seen ++ [found]) todo,
            [ActScope URL dom sub])
  | ULoopSend k URL seen found todo =>
      Some (ULoop k URL (seen ++ [found]) todo, [ActSend (expansion k found)])
  | UDone _ => None
  end.

Definition pstep (st : State) : option State :=
  match producer st with
  | PRewrite =>
      Some {| domain := if IncludeSubdomains config
                        then "*." +:+ domain st else domain st;
              producer := PFetch; dispatcher := dispatcher st;
              units := units st; wg := wg st; trace := trace st |}
  | PFetch =>
      let '(results, err) := getWaybackURLs (domain st) in
      Some {| domain := domain st;
              producer := match err with
                          | Some _ => PClosed
                          | None => PLoop results
                          end;
              dispatcher := dispatcher st;
              units := units st; wg := wg st; trace := trace st |}
  | PLoop [] =>
      Some {| domain := domain st; producer := PClosed;
              dispatcher := dispatcher st;
              units := units st; wg := wg st; trace := trace st |}
  | PLoop (URL :: results) =>
      if nonEmpty URL then
        (* the send meets the receive of the dispatcher, which adds one
           to the wait group and starts the unit *)
        match dispatcher st with
        | DRange =>
            Some {| domain := domain st; producer := PLoop results;
                    dispatcher := DRange;
                    units := units st ++ [UScope URL];
                    wg := (wg st + 1)%Z; trace := trace st |}
        | _ => None
        end
      else
        Some {| domain := domain st; producer := PLoop results;
                dispatcher := dispatcher st;
                units := units st; wg := wg st; trace := trace st |}
  | PClosed => None
  end.

Definition dstep (st : State) : option State :=
  match dispatcher st with
  | DRange =>
      match producer st with
      | PClosed =>
          Some {| domain := domain st; producer := PClosed;
                  dispatcher := DWait;
                  units := units st; wg := wg st; trace := trace st |}
      | _ => None
      end
  | DWait =>
      if (wg st =? 0)%Z then
        Some {| domain := domain st; producer := producer st;
                dispatcher := DClosed;
                units := units st; wg := wg st; trace := trace st |}
      else None
  | DClosed => None
  end.

(** A unit that returns runs its deferred [wg.Done()]. *)
Definition step (c : Choice) (st : State) : option State :=
  match c with
  | RunProducer => pstep st
  | RunDispatcher => dstep st
  | RunUnit i =>
      match units st !! i with
      | Some u =>
          match ustep (domain st) u with
          | Some (u', acts) =>
              Some {| domain := domain st; producer := producer st;
                      dispatcher := dispatcher st;
                      units := <[i := u']> (units st);
                      wg := if isDone u' then (wg st - 1)%Z else wg st;
                      trace := trace st ++ map (pair i) acts |}
          | None => None
          end
      | None => None
      end
  end.

Definition init : State :=
  {| domain := domain0; producer := PRewrite; dispatcher := DRange;
     units := []; wg := 0%Z; trace := [] |}.

Fixpoint exec (cs : list Choice) (st : State) : option State :=
  match cs with
  | [] => Some st
  | c :: cs' =>
      match step c st with
      | Some st' => exec cs' st'
      | None => None
      end
  end.

Inductive reachable : State -> Prop :=
| reachable_init : reachable init
| reachable_step st c st' :
    reachable st -> step c st = Some st' -> reachable st'.

(** The output channel is closed. *)
Definition closed (st : State) : Prop := dispatcher st = DClosed.

(** No goroutine can move. *)
Definition halted (st : State) : Prop := forall c, step c st = None.

(** The records received from the output channel, in order. *)
Definition sent (st : State) : list sources.URL :=
  sends (map snd (trace st)).

(** The actions of unit [i], in order. *)
Definition proj (i : nat) (tr : list (nat * Action)) : list Action :=
  map snd (List.filter (fun e => Nat.eqb (fst e) i) tr).

(** *** What a unit does from start to end

    The value of [domain] that the units read, and the whole run of a
    unit as a function of its URL. *)

Definition rewritten : string :=
  if IncludeSubdomains config then "*." +:+ domain0 else domain0.

Definition scoped (URL : string) : bool :=
  IsInScope URL rewritten (IncludeSubdomains config).

Definition loopActions (k : Expander) (URL : string) (seen : list string)
  : list Action :=
  flat_map (fun found =>
              ActScope URL rewritten (IncludeSubdomains config) ::
              if scoped URL then [ActSend (expansion k found)] else [])
           seen.

Definition unitActions (URL : string) : list Action :=
  ActScope URL rewritten (IncludeSubdomains config) ::
  if scoped URL then
    ActSend (base URL) ::
    match selects URL with
    | None => []
    | Some k =>
        call rewritten k URL :: loopActions k URL (expand rewritten k URL)
    end
  else [].

(** The actions a unit has performed when it is at a given control point. *)
Definition hist (u : Unit) : list Action :=
  let sub := IncludeSubdomains config in
  match u with
  | UScope _ => []
  | USendBase URL => [ActScope URL rewritten sub]
  | UExpand URL => [ActScope URL rewritten sub; ActSend (base URL)]
  | ULoop k URL seen _ =>
      [ActScope URL rewritten sub; ActSend (base URL); call rewritten k URL]
      ++ loopActions k URL seen
  | ULoopSend k URL seen _ _ =>
      [ActScope URL rewritten sub; ActSend (base URL); call rewritten k URL]
      ++ loopActions k URL seen ++ [ActScope URL rewritten sub]
  | UDone URL => unitActions URL
  end.

(** The control points a unit can be at. *)
Definition wf (u : Unit) : Prop :=
  match u with
  | UScope _ | UDone _ => True
  | USendBase URL | UExpand URL => scoped URL = true
  | ULoop k URL seen todo =>
      scoped URL = true /\ selects URL = Some k /\
      seen ++ todo = expand rewritten k URL
  | ULoopSend k URL seen found todo =>
      scoped URL = true /\ selects URL = Some k /\
      seen ++ found :: todo = expand rewritten k URL
  end.

(** *** A bound on the steps left *)

Definition unitSteps (u : Unit) : nat :=
  let loops URL :=
    2 * (length (expand rewritten Robots URL)
         + length (expand rewritten Sources URL)) in
  match u with
  | UScope URL => 4 + loops URL
  | USendBase URL => 3 + loops URL
  | UExpand URL => 2 + loops URL
  | ULoop _ _ _ todo => 1 + 2 * length todo
  | ULoopSend _ _ _ _ todo => 2 + 2 * length todo
  | UDone _ => 0
  end.

Definition streamSteps (results : list string) : nat :=
  1 + list_sum (map (fun URL => 1 + unitSteps (UScope URL)) results).

Definition producerSteps (p : Producer) : nat :=
  match p with
  | PRewrite => 2 + streamSteps (fst (getWaybackURLs rewritten))
  | PFetch => 1 + streamSteps (fst (getWaybackURLs rewritten))
  | PLoop results => streamSteps results
  | PClosed => 0
  end.

Definition dispatcherSteps (d : Dispatcher) : nat :=
  match d with DRange => 2 | DWait => 1 | DClosed => 0 end.

Definition stepsLeft (st : State) : nat :=
  producerSteps (producer st) + dispatcherSteps (dispatcher st)
  + list_sum (map unitSteps (units st)).

(** The URLs the producer puts on [waybackURLs] in a whole run. *)
Definition stream : list string :=
  match getWaybackURLs rewritten with
  | (results, None) => List.filter nonEmpty results
  | (_, Some _) => []
  end.

(** The number of units that have not returned. *)
Definition running (us : list Unit) : nat :=
  list_sum (map (fun u => if isDone u then 0 else 1) us).

(** What links the parts of a reachable state. *)
Record Inv (st : State) : Prop := {
  inv_domain :
    match producer st with
    | PRewrite => domain st = domain0
    | _ => domain st = rewritten
    end;
  inv_units : forall i u,
    units st !! i = Some u -> wf u /\ proj i (trace st) = hist u;
  inv_trace : forall i a,
    In (i, a) (trace st) -> i < length (units st);
  inv_wg :
    wg st = Z.of_nat (running (units st));
  inv_dispatcher :
    match dispatcher st with
    | DRange => True
    | DWait => producer st = PClosed
    | DClosed => producer st = PClosed /\ wg st = 0%Z
    end;
  inv_stream :
    match producer st with
    | PRewrite | PFetch => units st = []
    | PLoop results =>
        snd (getWaybackURLs rewritten) = None /\
        map unitURL (units st) ++ List.filter nonEmpty results = stream
    | PClosed => map unitURL (units st) = stream
    end
}.

End Run.

(** ** The words of the specification *)

Module Spec.

Fixpoint afterScheme (s : string) : string :=
  match s with
  | EmptyString => EmptyString
  | String c s' =>
      if HasPrefix s "://" then skip 3 s else afterScheme s'
  end.

Fixpoint upTo (stops : list ascii) (s : string) : string :=
  match s with
  | EmptyString => EmptyString
  | String c s' =>
      if existsb (Ascii.eqb c) stops then EmptyString
      else String c (upTo stops s')
  end.

Fixpoint from (stops : list ascii) (s : string) : string :=
  match s with
  | EmptyString => EmptyString
  | String c s' =>
      if existsb (Ascii.eqb c) stops then s else from stops s'
  end.

(** The host of a URL: what stands between [://] and the next slash,
    colon, question mark or hash. *)
Definition host (URL : string) : string :=
  upTo ["/"; ":"; "?"; "#"]%char (afterScheme URL).

(** The path of a URL: from the first slash after the authority up to the
    query or the fragment. *)
Definition path (URL : string) : string :=
  upTo ["?"; "#"]%char (from ["/"; "?"; "#"]%char (afterScheme URL)).

Definition HasSuffix (s suffix : string) : bool :=
  HasPrefix (rev s) (rev suffix).

(** Modelled from the spec: [sources.IsInScope] is not in the file.  The
    Scope Spec says that a URL is in scope iff its host equals the root
    domain, or, when subdomains are included, is a strict subdomain of
    it. *)
Definition IsInScope (URL rootDomain : string) (includeSubdomains : bool)
  : bool :=
  String.eqb (host URL) rootDomain ||
  includeSubdomains && HasSuffix (host URL) ("." +:+ rootDomain)
  && negb (String.eqb (host URL) ("." +:+ rootDomain)).

End Spec.

(** ** A sample archive *)

Module Sample.

Definition robotsTxt : string := "http://example.com/robots.txt".
Definition deepRobotsTxt : string := "http://example.com/a/robots.txt".
Definition logo : string := "http://example.com/logo.PNG?x=1".
Definition elsewhere : string := "http://sub.example.com/b".
Definition page : string := "http://example.com/page".
Definition foreignSitemap : string := "http://other.org/sitemap.xml".

Definition eol : string := String CR (String LF EmptyString).

Definition indexBody : string :=
  robotsTxt +:+ eol +:+ deepRobotsTxt +:+ eol +:+ logo +:+ eol +:+ eol
  +:+ elsewhere +:+ eol +:+ page.

(** The snapshot list of [page] holds its header row only. *)
Definition headerRow : Snapshot := ("timestamp", "original").
Definition snapshotsBody : string :=
  "[[" +:+ String dquote "timestamp" +:+ String dquote ","
  +:+ String dquote "original" +:+ String dquote "]]".

Definition get (reqURL : string) : Response + error :=
  if String.eqb reqURL (indexReqURL "example.com")
     || String.eqb reqURL (indexReqURL "*.example.com") then
    inl {| ContentLength := 148; Body := indexBody |}
  else if String.eqb reqURL (snapshotsReqURL page) then
    inl {| ContentLength := 26; Body := snapshotsBody |}
  else if String.eqb reqURL (contentReqURL "20200101000000" page) then
    inl {| ContentLength := 0; Body := EmptyString |}
  else if String.eqb reqURL (contentReqURL "20210101000000" page) then
    inl {| ContentLength := 80;
           Body := "<p>" +:+ snapshotNotFoundFingerprint +:+ "</p>" |}
  else inr "dial tcp: lookup failed".

Definition decode (body : string) : list Snapshot * option error :=
  if String.eqb body snapshotsBody then ([headerRow], None)
  else ([], Some "unexpected end of JSON input").

Definition archive : Environment :=
  {| SimpleGet := get;
     jsonUnmarshal := decode;
     IsInScope := Spec.IsInScope;
     parseWaybackRobots := fun _ URL =>
       if String.eqb URL robotsTxt
       then ["http://example.com/sitemap.xml"; foreignSitemap]
       else if String.eqb URL deepRobotsTxt
       then ["http://example.com/a/private"]
       else [];
     parseWaybackSource := fun _ URL =>
       if String.eqb URL page then ["http://example.com/page2"] else [] |}.

Definition everything : Configuration :=
  {| IncludeSubdomains := false;
     ParseWaybackRobots := true;
     ParseWaybackSource := true |}.


Definition withSubdomains : Configuration :=
  {| IncludeSubdomains := true;
     ParseWaybackRobots := false;
     ParseWaybackSource := false |}.

(** A schedule that runs the producer up to its first send, lets the
    first unit make some steps, runs the producer to its end, and then
    runs the units one after the other, the last one first. *)
Definition schedule (early steps0 steps1 steps2 steps3 steps4 : nat)
  : list Choice :=
  repeat RunProducer 3 ++ repeat (RunUnit 0) early ++ repeat RunProducer 5
  ++ [RunDispatcher]
  ++ repeat (RunUnit 4) steps4 ++ repeat (RunUnit 3) steps3
  ++ repeat (RunUnit 2) steps2 ++ repeat (RunUnit 1) steps1
  ++ repeat (RunUnit 0) steps0
  ++ [RunDispatcher].

Definition run (config : Configuration) (cs : list Choice) : State :=
  match exec (env := archive) config cs (init "example.com") with
  | Some st => st
  | None => init "example.com"
  end.

(** Three whole runs. *)
Definition finished : State :=
  Eval vm_compute in run everything (schedule 2 6 6 3 1 6).


Definition finishedWithSubdomains : State :=
  Eval vm_compute in run withSubdomains (schedule 1 0 1 1 1 1).

(** An archive whose index holds one line of [MaxScanTokenSize] bytes
    after a first URL. *)
Definition longLine : string :=
  N.iter MaxScanTokenSize (String "a") EmptyString.

Definition brokenIndex : Environment :=
  {| SimpleGet := fun _ =>
       inl {| ContentLength := 65557;
              Body := "http://example.com/a" +:+ String LF longLine |};
     jsonUnmarshal := decode;
     IsInScope := Spec.IsInScope;
     parseWaybackRobots := fun _ _ => [];
     parseWaybackSource := fun _ _ => [] |}.

End Sample.

(** ** Words for the properties of the scanner and of the patterns *)

Definition notLF (c : ascii) : bool := negb (Ascii.eqb c LF).

Definition isASCII (c : ascii) : bool := (byte c <? 128)%N.

(** The length of a string, as a binary number. *)
Fixpoint len (s : string) : N :=
  match s with
  | EmptyString => 0
  | String _ s' => N.succ (len s')
  end.

(** The last byte of a string is a carriage return. *)
Fixpoint endsWithCR (s : string) : bool :=
  match s with
  | EmptyString => false
  | String c EmptyString => Ascii.eqb c CR
  | String _ s' => endsWithCR s'
  end.

(** A line of an index that the scanner hands out as it is: not empty,
    free of line feeds, not ending in a carriage return, and shorter than
    the largest token. *)
Definition plainLine (l : string) : Prop :=
  nonEmpty l = true /\ allBytes notLF l = true /\ endsWithCR l = false /\
  (len l < MaxScanTokenSize)%N.

(** Lines separated by line feeds. *)
Fixpoint joinLines (lines : list string) : string :=
  match lines with
  | [] => EmptyString
  | [l] => l
  | l :: rest => l +:+ String LF (joinLines rest)
  end.

(** Lines each followed by a line feed. *)
Fixpoint linesLF (lines : list string) : string :=
  match lines with
  | [] => EmptyString
  | l :: rest => l +:+ String LF (linesLF rest)
  end.

(** A line that fits in a token: free of line feeds and shorter than the
    largest token. *)
Definition fits (l : string) : Prop :=
  allBytes notLF l = true /\ (len l < MaxScanTokenSize)%N.

(** Lines each followed by a carriage return and a line feed. *)
Fixpoint linesCRLF (lines : list string) : string :=
  match lines with
  | [] => EmptyString
  | l :: rest => l +:+ String CR (String LF (linesCRLF rest))
  end.

(** A lower-case ASCII letter or a digit: the bytes of the extensions. *)
Definition lowerAlnum (c : ascii) : bool := inRange 97 122 c || inRange 48 57 c.

(** ** The records of one unit *)

Section Records.

Context {env : Environment}.
Variable config : Configuration.
Variable domain0 : string.

(** What the unit started for [URL] sends from start to end, in order: its
    base record if the URL passes the scope check, then one record for each
    value of the expander it reaches. *)
Definition records (URL : string) : list sources.URL :=
  if IsInScope URL (rewritten config domain0) (IncludeSubdomains config) then
    base URL ::
    match selects config URL with
    | Some k =>
        map (expansion k) (expand config (rewritten config domain0) k URL)
    | None => []
    end
  else [].


End Records.

(** ** An index of plain lines *)

Module Listing.

Definition lines : list string := [Sample.robotsTxt; Sample.page].

Definition plainIndex : Environment :=
  {| SimpleGet := fun _ =>
       inl {| ContentLength := 54;
              Body := joinLines lines +:+ String LF EmptyString |};
     jsonUnmarshal := Sample.decode;
     IsInScope := Spec.IsInScope;
     parseWaybackRobots := fun _ _ => [];
     parseWaybackSource := fun _ _ => [] |}.

(** The same index with a blank line, every line ending in CR LF. *)
Definition linesWithBlank : list string :=
  [Sample.robotsTxt; EmptyString; Sample.page].

Definition crlfIndex : Environment :=
  {| SimpleGet := fun _ =>
       inl {| ContentLength := 58; Body := linesCRLF linesWithBlank |};
     jsonUnmarshal := Sample.decode;
     IsInScope := Spec.IsInScope;
     parseWaybackRobots := fun _ _ => [];
     parseWaybackSource := fun _ _ => [] |}.

End Listing.

(** ** A run on the archive whose index does not scan *)

Module Failing.


End Failing.
Lemma HasPrefix_spec s p :
  HasPrefix s p = true <-> exists post, s = p +:+ post.
Proof.
  revert s; induction p as [|a p IH]; intros s; simpl.
  - split; [intros _; now exists s | reflexivity].
  - destruct s as [|c s]; simpl.
    + split; [discriminate | intros [post H]; discriminate].
    + rewrite andb_true_iff, Ascii.eqb_eq, IH. split.
      * intros [-> [post ->]]. now exists post.
      * intros [post H]. injection H as -> ->. split; [reflexivity | now exists post].
Qed.

Lemma Contains_spec s sub :
  Contains s sub = true <-> exists pre post, s = pre +:+ sub +:+ post.
Proof.
  induction s as [|c s IH]; simpl.
  - rewrite orb_false_r, HasPrefix_spec. split.
    + intros [post H]. now exists "", post.
    + intros [pre [post H]]. destruct pre; simpl in H; [now exists post | discriminate].
  - rewrite orb_true_iff, IH, HasPrefix_spec. split.
    + intros [[post H] | [pre [post H]]].
      * now exists "", post.
      * exists (String c pre), post. simpl. now rewrite H.
    + intros [pre [post H]]. destruct pre as [|a pre]; simpl in H.
      * left. now exists post.
      * right. injection H as _ ->. now exists pre, post.
Qed.

Lemma TrimPrefix_spec s p r :
  TrimPrefix s p = Some r <-> s = p +:+ r.
Proof.
  revert s; induction p as [|a p IH]; intros s; simpl.
  - split; [now intros [= ->] | now intros ->].
  - destruct s as [|c s]; [split; discriminate|].
    destruct (Ascii.eqb_spec c a) as [->|Hne].
    + rewrite IH. split; [now intros -> | now intros [= ->]].
    + split; [discriminate | intros [= H _]; contradiction].
Qed.

Example media1 : mediaURLRegex "http://example.com/logo.PNG?x=1" = true.
Proof. reflexivity. Qed.

Example media2 : mediaURLRegex "http://example.com/font.woff2" = true.
Proof. reflexivity. Qed.

Example media3 : mediaURLRegex "http://example.com/a.svgz" = false.
Proof. reflexivity. Qed.

Example media4 : mediaURLRegex "http://example.com/a.png/b" = false.
Proof. reflexivity. Qed.

Example robots1 : robotsURLsRegex "http://example.com/robots.txt" = true.
Proof. reflexivity. Qed.

Example robots2 : robotsURLsRegex "https://example.com/a/robots.txt" = true.
Proof. reflexivity. Qed.

Example robots3 : robotsURLsRegex "https://example.com/robots.txt?x" = false.
Proof. reflexivity. Qed.

Example robots4 : robotsURLsRegex "http:///robots.txt" = false.
Proof. reflexivity. Qed.

Example robots5 : robotsURLsRegex "ftp://example.com/robots.txt" = false.
Proof. reflexivity. Qed.

Example scan1 :
  scanLines ("a" +:+ String CR (String LF (String LF "bc"))) "" 0
  = (["a"; ""; "bc"], None).
Proof. reflexivity. Qed.

(** * Properties *)

(** ** The regular expressions *)

Lemma foldRune_toLower c rest :
  foldRune (toLower c) (String c rest) = Some rest.
Proof.
  unfold foldRune.
  replace (Ascii.eqb c (toLower c) || Ascii.eqb c (toUpper (toLower c))
           || Ascii.eqb c (toLower (toLower c))) with true; [reflexivity|].
  destruct c as [[] [] [] [] [] [] [] []]; reflexivity.
Qed.

Lemma foldPrefix_ToLower ext rest :
  foldPrefix (ToLower ext) (ext +:+ rest) = Some rest.
Proof.
  induction ext as [|c ext IH]; [reflexivity|].
  change (foldPrefix (ToLower (String c ext)) (String c ext +:+ rest))
    with (match foldRune (toLower c) (String c (ext +:+ rest)) with
          | Some s' => foldPrefix (ToLower ext) s'
          | None => None
          end).
  rewrite foldRune_toLower. exact IH.
Qed.

Lemma mediaURLRegex_app pre s :
  mediaAt s = true -> mediaURLRegex (pre +:+ s) = true.
Proof.
  intros H. induction pre as [|c pre IH].
  - change (EmptyString +:+ s) with s.
    destruct s as [|a s]; [discriminate H|].
    cbn [mediaURLRegex]. rewrite H. reflexivity.
  - change (String c pre +:+ s) with (String c (pre +:+ s)).
    cbn [mediaURLRegex]. rewrite IH. apply orb_true_r.
Qed.

(** A URL with a listed extension matches [mediaURLRegex]. *)
Lemma hasMediaExtension_match URL :
  hasMediaExtension URL -> mediaURLRegex URL = true.
Proof.
  intros (pre & ext & rest & -> & Hin & Hrest).
  apply mediaURLRegex_app.
  change ("." +:+ ext +:+ rest) with (String "." (ext +:+ rest)).
  unfold mediaAt. rewrite Ascii.eqb_refl. cbn [andb].
  apply existsb_exists. exists (ToLower ext). split; [exact Hin|].
  rewrite foldPrefix_ToLower.
  destruct Hrest as [-> | [rest' [-> | ->]]]; reflexivity.
Qed.

Lemma robotsRest_app X t :
  allBytes notSpaceQuote X = true -> robotsEnd t = true ->
  robotsRest (X +:+ t) = true.
Proof.
  intros HX Ht. induction X as [|c X IH].
  - change (EmptyString +:+ t) with t.
    destruct t as [|a t]; [discriminate Ht|].
    cbn [robotsRest]. rewrite Ht. reflexivity.
  - change (String c X +:+ t) with (String c (X +:+ t)).
    cbn [allBytes] in HX. apply andb_true_iff in HX as [Hc HX].
    cbn [robotsRest]. rewrite Hc, (IH HX). apply orb_true_r.
Qed.

(** Every [http] or [https] URL that ends in [/robots.txt] after a
    non-empty part free of spaces and double quotes matches
    [robotsURLsRegex], at whatever depth the file is. *)
Lemma robotsURLsRegex_robots_txt (secure : bool) X :
  X <> EmptyString -> allBytes notSpaceQuote X = true ->
  robotsURLsRegex ((if secure then "https" else "http") +:+ "://" +:+ X
                   +:+ "/robots.txt") = true.
Proof.
  intros HX Hall. destruct X as [|c X]; [contradiction|].
  simpl in Hall. apply andb_true_iff in Hall as [Hc Hall].
  assert (Hrest : robotsRest (X +:+ "/robots.txt") = true)
    by (apply robotsRest_app; [exact Hall | reflexivity]).
  destruct secure; unfold robotsURLsRegex, robotsAuthority; simpl;
    rewrite Hc; simpl; simpl in Hrest; rewrite Hrest; reflexivity.
Qed.

(** ** The fetchers *)

Lemma nonEmpty_false s : nonEmpty s = false <-> s = EmptyString.
Proof. destruct s; simpl; split; congruence. Qed.

Section FetcherFacts.

Context {env : Environment}.

Lemma getWaybackURLs_nonEmpty domain URL :
  In URL (fst (getWaybackURLs domain)) -> nonEmpty URL = true.
Proof.
  unfold getWaybackURLs. destruct (SimpleGet _) as [res|err]; simpl.
  - destruct (scanLines _ _ _) as [tokens err]. simpl.
    intros H. apply filter_In in H. tauto.
  - tauto.
Qed.


Lemma getWaybackURLs_transport_error domain err :
  SimpleGet (indexReqURL domain) = inr err ->
  getWaybackURLs domain = ([], Some err).
Proof. unfold getWaybackURLs. now intros ->. Qed.

(** C3, evaluated on the code: when the response parses into a list of
    snapshots, [getWaybackSnapshots] returns the list without its first
    entry if it has two entries or more, the empty list if it is empty,
    and the list itself, one entry long, if it has exactly one entry. *)
Theorem getWaybackSnapshots_parsed URL res snapshots :
  SimpleGet (snapshotsReqURL URL) = inl res ->
  ContentLength res <> 0%Z ->
  jsonUnmarshal (Body res) = (snapshots, None) ->
  getWaybackSnapshots URL
  = (match snapshots with
     | [] => []
     | [entry] => [entry]
     | _ :: rest => rest
     end, None).
Proof.
  intros Hget Hlen Hjson. unfold getWaybackSnapshots.
  rewrite Hget. apply Z.eqb_neq in Hlen. rewrite Hlen, Hjson.
  destruct snapshots as [|e1 [|e2 rest]]; reflexivity.
Qed.

(** C4: [getWaybackContent] returns an error exactly when the transport
    fails or the body, which is then not empty, contains the fingerprint;
    an empty body gives empty content and no error, and a body with the
    fingerprint gives the fingerprint as the error. *)
Theorem getWaybackContent_error_iff timestamp URL :
  (snd (getWaybackContent (timestamp, URL)) <> None <->
     (exists err, SimpleGet (contentReqURL timestamp URL) = inr err) \/
     (exists res pre post,
         SimpleGet (contentReqURL timestamp URL) = inl res /\
         Body res <> EmptyString /\
         Body res = pre +:+ snapshotNotFoundFingerprint +:+ post))
  /\ (forall res,
         SimpleGet (contentReqURL timestamp URL) = inl res ->
         Body res = EmptyString ->
         getWaybackContent (timestamp, URL) = (EmptyString, None))
  /\ (forall res pre post,
         SimpleGet (contentReqURL timestamp URL) = inl res ->
         Body res = pre +:+ snapshotNotFoundFingerprint +:+ post ->
         getWaybackContent (timestamp, URL)
         = (Body res, Some snapshotNotFoundFingerprint)).
Proof.
  unfold getWaybackContent.
  destruct (SimpleGet (contentReqURL timestamp URL)) as [res|err].
  - destruct (nonEmpty (Body res)) eqn:Hne; simpl.
    + assert (Hbody : Body res <> EmptyString)
        by (intros E; rewrite E in Hne; discriminate).
      destruct (Contains (Body res) snapshotNotFoundFingerprint) eqn:Hc.
      * apply Contains_spec in Hc as (pre & post & Hc).
        split; [|split].
        -- split; [|discriminate]. intros _. right. now exists res, pre, post.
        -- intros res' [= <-] E. contradiction.
        -- intros res' pre' post' [= <-] _. reflexivity.
      * split; [|split].
        -- split; [simpl; congruence|].
           intros [[err H] | (res' & pre & post & [= <-] & _ & H)];
             [discriminate|].
           assert (Contains (Body res) snapshotNotFoundFingerprint = true)
             by (apply Contains_spec; now exists pre, post).
           congruence.
        -- intros res' [= <-] E. contradiction.
        -- intros res' pre post [= <-] H.
           assert (Contains (Body res) snapshotNotFoundFingerprint = true)
             by (apply Contains_spec; now exists pre, post).
           congruence.
    + apply nonEmpty_false in Hne. split; [|split].
      * split; [simpl; congruence|].
        intros [[err H] | (res' & pre & post & [= <-] & Hn & _)];
          [discriminate | contradiction].
      * intros res' [= <-] _. now rewrite Hne.
      * intros res' pre post [= <-] H. rewrite Hne in H.
        destruct pre; discriminate.
  - simpl. split; [|split].
    + split; [|discriminate]. intros _. left. now exists err.
    + discriminate.
    + discriminate.
Qed.

End FetcherFacts.

(** ** Lists updated in place, and projections of a trace *)

Lemma list_sum_insert {A} (f : A -> nat) (l : list A) i x y :
  l !! i = Some x ->
  list_sum (map f (<[i := y]> l)) + f x = list_sum (map f l) + f y.
Proof.
  revert i. induction l as [|a l IH]; intros [|i] H; simpl in *; try discriminate.
  - injection H as ->. lia.
  - specialize (IH i H). lia.
Qed.

Lemma map_insert_same {A B} (f : A -> B) (l : list A) i x y :
  l !! i = Some x -> f y = f x -> map f (<[i := y]> l) = map f l.
Proof.
  revert i. induction l as [|a l IH]; intros [|i] H E; simpl in *; try discriminate.
  - injection H as ->. now rewrite E.
  - now rewrite (IH i H E).
Qed.

Lemma list_sum_cons (l : list nat) n : list_sum (n :: l) = n + list_sum l.
Proof. reflexivity. Qed.

Lemma list_sum_snoc (l : list nat) n : list_sum (l ++ [n]) = list_sum l + n.
Proof. rewrite list_sum_app. simpl. lia. Qed.

Lemma proj_app i tr1 tr2 : proj i (tr1 ++ tr2) = proj i tr1 ++ proj i tr2.
Proof. unfold proj. now rewrite List.filter_app, map_app. Qed.

Lemma proj_tag_same i acts : proj i (map (pair i) acts) = acts.
Proof.
  unfold proj. induction acts as [|a acts IH]; simpl; [reflexivity|].
  rewrite Nat.eqb_refl. simpl. now rewrite IH.
Qed.

Lemma proj_tag_other i j acts : i <> j -> proj i (map (pair j) acts) = [].
Proof.
  intros Hne. unfold proj. induction acts as [|a acts IH]; simpl; [reflexivity|].
  destruct (Nat.eqb_spec j i); [congruence | exact IH].
Qed.

Lemma In_proj i a tr : In a (proj i tr) <-> In (i, a) tr.
Proof.
  unfold proj. rewrite in_map_iff. split.
  - intros ([j b] & <- & H). apply filter_In in H as [H E].
    simpl in E. apply Nat.eqb_eq in E. now subst.
  - intros H. exists (i, a). split; [reflexivity|].
    apply filter_In. split; [exact H | apply Nat.eqb_refl].
Qed.

Lemma proj_fresh i tr :
  (forall a, ~ In (i, a) tr) -> proj i tr = [].
Proof.
  intros H. destruct (proj i tr) as [|a l] eqn:E; [reflexivity|].
  exfalso. apply (H a), In_proj. rewrite E. now left.
Qed.

Lemma sends_app acts1 acts2 : sends (acts1 ++ acts2) = sends acts1 ++ sends acts2.
Proof. apply flat_map_app. Qed.

(** ** One unit *)

Section UnitFacts.

Context {env : Environment}.
Variable config : Configuration.
Variable domain0 : string.

Lemma loopActions_snoc k URL seen found :
  loopActions config domain0 k URL (seen ++ [found])
  = loopActions config domain0 k URL seen
    ++ ActScope URL (rewritten config domain0) (IncludeSubdomains config)
       :: (if scoped config domain0 URL
           then [ActSend (expansion k found)] else []).
Proof.
  unfold loopActions. rewrite flat_map_app. simpl. now rewrite app_nil_r.
Qed.

(** A step extends the history of the unit by the actions of the step. *)
Lemma ustep_hist u u' acts :
  wf config domain0 u ->
  ustep config (rewritten config domain0) u = Some (u', acts) ->
  wf config domain0 u' /\
  hist config domain0 u' = hist config domain0 u ++ acts.
Proof.
  intros Hwf Hstep.
  destruct u as [URL|URL|URL|k URL seen [|found todo]|k URL seen found todo|URL];
    simpl in Hstep.
  - injection Hstep as <- <-.
    fold (scoped config domain0 URL).
    destruct (scoped config domain0 URL) eqn:E; simpl.
    + split; [exact E | reflexivity].
    + split; [exact I|]. unfold unitActions. now rewrite E.
  - injection Hstep as <- <-. simpl in *. split; [exact Hwf | reflexivity].
  - simpl in Hwf. destruct (selects config URL) as [k|] eqn:E;
      injection Hstep as <- <-; simpl.
    + split; [now repeat split|]. reflexivity.
    + split; [exact I|]. unfold unitActions. now rewrite Hwf, E.
  - injection Hstep as <- <-. destruct Hwf as (Hs & Hk & Hseen).
    split; [exact I|]. simpl. unfold unitActions.
    rewrite Hs, Hk, <- Hseen, !app_nil_r. reflexivity.
  - destruct Hwf as (Hs & Hk & Hseen).
    fold (scoped config domain0 URL) in Hstep. rewrite Hs in Hstep.
    injection Hstep as <- <-. split; [now repeat split|].
    simpl. rewrite <- ?app_assoc. reflexivity.
  - destruct Hwf as (Hs & Hk & Hseen). injection Hstep as <- <-.
    split.
    + simpl. repeat split; try assumption. now rewrite <- app_assoc.
    + simpl. rewrite loopActions_snoc, Hs, <- ?app_assoc. reflexivity.
  - discriminate.
Qed.

Lemma ustep_unitURL dom u u' acts :
  ustep config dom u = Some (u', acts) -> unitURL u' = unitURL u.
Proof.
  destruct u as [URL|URL|URL|k URL seen [|found todo]|k URL seen found todo|URL];
    simpl; intros H; try discriminate.
  - injection H as <- _. now destruct (IsInScope _ _ _).
  - now injection H as <- _.
  - destruct (selects config URL); now injection H as <- _.
  - now injection H as <- _.
  - injection H as <- _. now destruct (IsInScope _ _ _).
  - now injection H as <- _.
Qed.

Lemma ustep_running dom u :
  isDone u = false -> exists u' acts, ustep config dom u = Some (u', acts).
Proof.
  destruct u as [URL|URL|URL|k URL seen [|found todo]|k URL seen found todo|URL];
    simpl; intros H; try discriminate; eauto.
  destruct (selects config URL); eauto.
Qed.

Lemma ustep_not_done dom u r :
  ustep config dom u = Some r -> isDone u = false.
Proof. destruct u; simpl; intros H; [reflexivity..|discriminate]. Qed.

Lemma ustep_unitSteps u u' acts :
  ustep config (rewritten config domain0) u = Some (u', acts) ->
  unitSteps config domain0 u' < unitSteps config domain0 u.
Proof.
  destruct u as [URL|URL|URL|k URL seen [|found todo]|k URL seen found todo|URL];
    simpl; intros H; try discriminate.
  - injection H as <- _. destruct (IsInScope _ _ _); simpl; lia.
  - injection H as <- _. simpl. lia.
  - destruct (selects config URL) as [[]|]; injection H as <- _; simpl; lia.
  - injection H as <- _. simpl. lia.
  - injection H as <- _. destruct (IsInScope _ _ _); simpl; lia.
  - injection H as <- _. simpl. lia.
Qed.

End UnitFacts.

(** ** The invariant of [Run] *)

Section RunFacts.

Context {env : Environment}.
Variable config : Configuration.
Variable domain0 : string.

Lemma running_snoc us u :
  running (us ++ [u]) = running us + (if isDone u then 0 else 1).
Proof. unfold running. rewrite map_app. apply list_sum_snoc. Qed.

Lemma running_insert us i u u' :
  us !! i = Some u -> isDone u = false ->
  running (<[i := u']> us) + 1
  = running us + (if isDone u' then 0 else 1).
Proof.
  intros Hi Hrun. unfold running.
  pose proof (list_sum_insert (fun u => if isDone u then 0 else 1)
                us i u u' Hi) as Hsum.
  cbv beta in Hsum. rewrite Hrun in Hsum. exact Hsum.
Qed.

Lemma stream_error e :
  snd (getWaybackURLs (rewritten config domain0)) = Some e ->
  stream config domain0 = [].
Proof.
  unfold stream. destruct (getWaybackURLs _) as [results err]. simpl.
  now intros ->.
Qed.


Lemma Inv_init : Inv config domain0 (init domain0).
Proof.
  constructor; simpl; try reflexivity; try exact I.
  - intros i u H. destruct i; discriminate.
  - intros i a [].
Qed.

Lemma Inv_pstep st st' :
  Inv config domain0 st -> pstep config st = Some st' -> Inv config domain0 st'.
Proof.
  intros [Hd Hu Ht Hw Hdi Hs] H. unfold pstep in H.
  destruct (producer st) as [| |[|URL results]|] eqn:Hp.
  - injection H as <-. constructor; simpl; try assumption.
    + rewrite Hd. reflexivity.
    + destruct (dispatcher st); [exact I | discriminate | destruct Hdi; discriminate].
  - rewrite Hd in H.
    destruct (getWaybackURLs (rewritten config domain0)) as [results err] eqn:Hget.
    injection H as <-. constructor; simpl; try assumption.
    + now destruct err.
    + destruct (dispatcher st); [exact I | discriminate | destruct Hdi; discriminate].
    + rewrite Hs. destruct err as [e|]; simpl.
      * symmetry. apply (stream_error e). now rewrite Hget.
      * split; [now rewrite Hget|]. unfold stream. now rewrite Hget.
  - injection H as <-. constructor; simpl; try assumption.
    + destruct (dispatcher st); [exact I | discriminate | destruct Hdi; discriminate].
    + destruct Hs as [_ Hs]. simpl in Hs. now rewrite app_nil_r in Hs.
  - destruct (nonEmpty URL) eqn:Hne.
    + destruct (dispatcher st) eqn:Hdisp; try discriminate.
      injection H as <-. constructor; simpl; try assumption.
      * intros i u Hi. apply lookup_app_Some in Hi as [Hi | [Hlen Hi]].
        -- apply Hu, Hi.
        -- destruct (i - length (units st)) as [|n] eqn:E; [|destruct n; discriminate].
           injection Hi as <-. split; [exact I|]. simpl.
           apply proj_fresh. intros a Ha. apply Ht in Ha. lia.
      * intros i a Ha. apply Ht in Ha. rewrite length_app. simpl. lia.
      * rewrite running_snoc, Hw. simpl. lia.
      * destruct Hs as [He Hs]. split; [exact He|].
        rewrite map_app, <- app_assoc. simpl. simpl in Hs.
        now rewrite Hne in Hs.
    + injection H as <-. constructor; simpl; try assumption.
      * destruct (dispatcher st); [exact I | discriminate | destruct Hdi; discriminate].
      * destruct Hs as [He Hs]. split; [exact He|].
        simpl in Hs. now rewrite Hne in Hs.
  - discriminate.
Qed.

Lemma Inv_dstep st st' :
  Inv config domain0 st -> dstep st = Some st' -> Inv config domain0 st'.
Proof.
  intros [Hd Hu Ht Hw Hdi Hs] H. unfold dstep in H.
  destruct (dispatcher st) eqn:Hdisp.
  - destruct (producer st) eqn:Hp; try discriminate.
    injection H as <-. constructor; simpl; try assumption; try reflexivity.
  - destruct (wg st =? 0)%Z eqn:E; [|discriminate].
    injection H as <-. constructor; simpl; try assumption.
    split; [exact Hdi | now apply Z.eqb_eq].
  - discriminate.
Qed.

Lemma Inv_producer_started st i u :
  Inv config domain0 st -> units st !! i = Some u ->
  domain st = rewritten config domain0.
Proof.
  intros [Hd _ _ _ _ Hs] Hi.
  destruct (producer st); try exact Hd; rewrite Hs in Hi; destruct i; discriminate.
Qed.

Lemma Inv_ustep st st' i :
  Inv config domain0 st -> step config (RunUnit i) st = Some st' ->
  Inv config domain0 st'.
Proof.
  intros HI H. pose proof HI as [Hd Hu Ht Hw Hdi Hs]. simpl in H.
  destruct (units st !! i) as [u|] eqn:Hi; [|discriminate].
  pose proof (Inv_producer_started _ _ _ HI Hi) as Hdom.
  destruct (ustep config (domain st) u) as [[u' acts]|] eqn:Hstep;
    [|discriminate].
  rewrite Hdom in Hstep. injection H as <-.
  destruct (Hu i u Hi) as [Hwf Hproj].
  destruct (ustep_hist _ _ _ _ _ Hwf Hstep) as [Hwf' Hhist].
  pose proof (ustep_unitURL _ _ _ _ _ Hstep) as HURL.
  pose proof (ustep_not_done _ _ _ _ Hstep) as Hrun.
  pose proof (lookup_lt_Some _ _ _ Hi) as Hlt.
  constructor; simpl.
  - exact Hd.
  - intros j v Hj. destruct (decide (i = j)) as [<-|Hne].
    + rewrite list_lookup_insert_eq in Hj by exact Hlt. injection Hj as <-.
      split; [exact Hwf'|].
      now rewrite proj_app, proj_tag_same, Hproj, Hhist.
    + rewrite list_lookup_insert_ne in Hj by exact Hne.
      destruct (Hu j v Hj) as [Hwfj Hprojj]. split; [exact Hwfj|].
      rewrite proj_app, proj_tag_other, app_nil_r by congruence. exact Hprojj.
  - intros j a Ha. rewrite length_insert. apply in_app_or in Ha as [Ha|Ha].
    + now apply Ht in Ha.
    + apply in_map_iff in Ha as (b & [= <- _] & _). exact Hlt.
  - pose proof (running_insert _ _ _ u' Hi Hrun) as Hsum.
    rewrite Hw. destruct (isDone u'); lia.
  - destruct (dispatcher st); [exact I | exact Hdi |].
    destruct Hdi as [_ Hz]. exfalso.
    pose proof (running_insert _ _ _ (UDone EmptyString) Hi Hrun) as Hsum.
    simpl in Hsum. lia.
  - rewrite (map_insert_same unitURL _ _ _ _ Hi HURL).
    destruct (producer st); try exact Hs; rewrite Hs in Hi; destruct i; discriminate.
Qed.

Lemma Inv_step c st st' :
  Inv config domain0 st -> step config c st = Some st' ->
  Inv config domain0 st'.
Proof.
  destruct c as [| |i].
  - apply Inv_pstep.
  - apply Inv_dstep.
  - apply Inv_ustep.
Qed.

Lemma reachable_Inv st : reachable config domain0 st -> Inv config domain0 st.
Proof.
  induction 1 as [|st c st' _ IH Hstep]; [apply Inv_init|].
  exact (Inv_step c st st' IH Hstep).
Qed.

(** ** Every run ends, and ends with the channel closed *)

Lemma step_stepsLeft c st st' :
  Inv config domain0 st -> step config c st = Some st' ->
  stepsLeft config domain0 st' < stepsLeft config domain0 st.
Proof.
  intros HI H. pose proof HI as [Hd Hu Ht Hw Hdi Hs].
  unfold stepsLeft. destruct c as [| |i]; simpl in H.
  - unfold pstep in H.
    destruct (producer st) as [| |[|URL results]|] eqn:Hp.
    + injection H as <-. simpl. lia.
    + rewrite Hd in H. cbn [producerSteps].
      destruct (getWaybackURLs (rewritten config domain0)) as [results err].
      injection H as <-. cbn [producer dispatcher units fst].
      destruct err; cbn [producerSteps]; lia.
    + injection H as <-. simpl. lia.
    + destruct (nonEmpty URL).
      * destruct (dispatcher st); try discriminate.
        injection H as <-. cbn [producer dispatcher units producerSteps].
        rewrite map_app. cbn [map]. rewrite list_sum_snoc.
        unfold streamSteps. cbn [map]. rewrite list_sum_cons. lia.
      * injection H as <-. cbn [producer dispatcher units producerSteps].
        unfold streamSteps. cbn [map]. rewrite list_sum_cons. lia.
    + discriminate.
  - unfold dstep in H. destruct (dispatcher st).
    + destruct (producer st); try discriminate. injection H as <-. simpl. lia.
    + destruct (wg st =? 0)%Z; [|discriminate]. injection H as <-. simpl. lia.
    + discriminate.
  - destruct (units st !! i) as [u|] eqn:Hi; [|discriminate].
    pose proof (Inv_producer_started _ _ _ HI Hi) as Hdom.
    destruct (ustep config (domain st) u) as [[u' acts]|] eqn:Hstep;
      [|discriminate].
    rewrite Hdom in Hstep. injection H as <-. simpl.
    pose proof (ustep_unitSteps _ _ _ _ _ Hstep) as Hlt.
    pose proof (list_sum_insert (unitSteps config domain0) _ _ _ u' Hi) as Hsum.
    lia.
Qed.

Lemma running_pos us :
  running us <> 0 -> exists i u, us !! i = Some u /\ isDone u = false.
Proof.
  induction us as [|u us IH]; [intros H; now contradiction H|].
  unfold running. cbn [map]. rewrite list_sum_cons.
  destruct (isDone u) eqn:E.
  - intros H. destruct (IH H) as (i & v & Hi & Hv). now exists (S i), v.
  - intros _. now exists 0, u.
Qed.

Lemma running_zero us : running us = 0 -> Forall (fun u => isDone u = true) us.
Proof.
  induction us as [|u us IH]; [constructor|].
  unfold running. cbn [map]. rewrite list_sum_cons.
  destruct (isDone u) eqn:E; [|discriminate].
  intros H. constructor; [exact E | exact (IH H)].
Qed.

(** As long as the channel is open, some goroutine can move. *)
Lemma progress st :
  Inv config domain0 st -> ~ closed st ->
  exists c st', step config c st = Some st'.
Proof.
  intros [Hd Hu Ht Hw Hdi Hs] Hopen. unfold closed in Hopen.
  destruct (producer st) as [| |[|URL results]|] eqn:Hp.
  - exists RunProducer. simpl. unfold pstep. rewrite Hp. eauto.
  - exists RunProducer. simpl. unfold pstep. rewrite Hp.
    destruct (getWaybackURLs (domain st)). eauto.
  - exists RunProducer. simpl. unfold pstep. rewrite Hp. eauto.
  - exists RunProducer. simpl. unfold pstep. rewrite Hp.
    destruct (nonEmpty URL); [|eauto].
    destruct (dispatcher st); [eauto | discriminate | destruct Hdi; discriminate].
  - destruct (dispatcher st) eqn:Hdisp.
    + exists RunDispatcher. simpl. unfold dstep. rewrite Hdisp, Hp. eauto.
    + destruct (wg st =? 0)%Z eqn:E.
      * exists RunDispatcher. simpl. unfold dstep. rewrite Hdisp, E. eauto.
      * apply Z.eqb_neq in E.
        destruct (running_pos (units st)) as (i & u & Hi & Hrun); [lia|].
        destruct (ustep_running config (domain st) u Hrun) as (u' & acts & Hstep).
        exists (RunUnit i). simpl. rewrite Hi, Hstep. eauto.
    + contradiction.
Qed.

(** The barrier: the channel is closed only after the producer has
    returned and every unit has returned; nothing moves afterwards. *)
Lemma closed_barrier st :
  Inv config domain0 st -> closed st ->
  producer st = PClosed /\
  Forall (fun u => isDone u = true) (units st) /\
  halted config st.
Proof.
  intros [Hd Hu Ht Hw Hdi Hs] Hc. unfold closed in Hc. rewrite Hc in Hdi.
  destruct Hdi as [Hp Hz].
  assert (Hall : Forall (fun u => isDone u = true) (units st))
    by (apply running_zero; lia).
  split; [exact Hp|]. split; [exact Hall|].
  intros [| |i]; simpl.
  - unfold pstep. now rewrite Hp.
  - unfold dstep. now rewrite Hc.
  - destruct (units st !! i) as [u|] eqn:Hi; [|reflexivity].
    rewrite Forall_forall in Hall.
    assert (Hdone : isDone u = true)
      by (apply Hall, list_elem_of_lookup; eauto).
    destruct u; try discriminate. reflexivity.
Qed.

Lemma exec_reachable cs st st' :
  reachable config domain0 st -> exec config cs st = Some st' ->
  reachable config domain0 st'.
Proof.
  revert st. induction cs as [|c cs IH]; simpl; intros st Hr H.
  - now injection H as <-.
  - destruct (step config c st) as [st1|] eqn:Hstep; [|discriminate].
    apply (IH st1); [|exact H]. exact (reachable_step _ _ st c st1 Hr Hstep).
Qed.

Lemma exec_stepsLeft cs st st' :
  reachable config domain0 st -> exec config cs st = Some st' ->
  length cs + stepsLeft config domain0 st' <= stepsLeft config domain0 st.
Proof.
  revert st. induction cs as [|c cs IH]; simpl; intros st Hr H.
  - injection H as <-. lia.
  - destruct (step config c st) as [st1|] eqn:Hstep; [|discriminate].
    pose proof (step_stepsLeft c st st1 (reachable_Inv st Hr) Hstep).
    pose proof (IH st1 (reachable_step _ _ st c st1 Hr Hstep) H). lia.
Qed.

Lemma closed_dec st : {closed st} + {~ closed st}.
Proof. unfold closed. destruct (dispatcher st); auto; right; discriminate. Qed.

Lemma halted_closed st :
  reachable config domain0 st -> halted config st -> closed st.
Proof.
  intros Hr Hh. destruct (closed_dec st) as [Hc|Hopen]; [exact Hc|].
  destruct (progress st (reachable_Inv st Hr) Hopen) as (c & st' & Hstep).
  rewrite Hh in Hstep. discriminate.
Qed.

(** From every reachable state some schedule closes the channel. *)
Lemma reachable_closes st :
  reachable config domain0 st ->
  exists cs st', exec config cs st = Some st' /\ closed st'.
Proof.
  remember (stepsLeft config domain0 st) as n eqn:Hn.
  revert st Hn. induction n as [n IH] using lt_wf_ind. intros st Hn Hr.
  destruct (closed_dec st) as [Hc|Hopen].
  - exists [], st. now split.
  - destruct (progress st (reachable_Inv st Hr) Hopen) as (c & st1 & Hstep).
    pose proof (step_stepsLeft c st st1 (reachable_Inv st Hr) Hstep) as Hlt.
    destruct (IH (stepsLeft config domain0 st1)) with (st := st1)
      as (cs & st' & Hexec & Hc); [lia | reflexivity | |].
    + exact (reachable_step _ _ st c st1 Hr Hstep).
    + exists (c :: cs), st'. simpl. rewrite Hstep. now split.
Qed.

End RunFacts.

(** ** What one unit may do *)

Section UnitClaims.

Context {env : Environment}.
Variable config : Configuration.
Variable domain0 : string.

Lemma loopActions_app k URL seen todo :
  loopActions config domain0 k URL (seen ++ todo)
  = loopActions config domain0 k URL seen
    ++ loopActions config domain0 k URL todo.
Proof. unfold loopActions. apply flat_map_app. Qed.

(** At every control point, what the unit has done is the beginning of
    its whole run. *)
Lemma hist_prefix u :
  wf config domain0 u ->
  exists rest,
    unitActions config domain0 (unitURL u) = hist config domain0 u ++ rest.
Proof.
  destruct u as [URL|URL|URL|k URL seen todo|k URL seen found todo|URL];
    simpl; intros Hwf.
  - eauto.
  - unfold unitActions. rewrite Hwf. eauto.
  - unfold unitActions. rewrite Hwf. eauto.
  - destruct Hwf as (Hs & Hk & Hseen). unfold unitActions.
    rewrite Hs, Hk, <- Hseen, loopActions_app. eauto.
  - destruct Hwf as (Hs & Hk & Hseen). unfold unitActions.
    rewrite Hs, Hk, <- Hseen, loopActions_app.
    exists (ActSend (expansion k found) :: loopActions config domain0 k URL todo).
    simpl. rewrite Hs. now rewrite <- !app_assoc.
  - exists []. now rewrite app_nil_r.
Qed.

Lemma In_loopActions a k URL seen :
  In a (loopActions config domain0 k URL seen) ->
  a = ActScope URL (rewritten config domain0) (IncludeSubdomains config) \/
  exists found, In found seen /\ a = ActSend (expansion k found).
Proof.
  unfold loopActions. rewrite in_flat_map. intros (found & Hin & Ha).
  destruct Ha as [<- | Ha]; [now left|]. right. exists found.
  destruct (scoped config domain0 URL); [|destruct Ha].
  destruct Ha as [<- | []]. now split.
Qed.

(** The actions of a whole run, one kind at a time. *)
Lemma unitActions_scope URL URL' d sub :
  In (ActScope URL' d sub) (unitActions config domain0 URL) ->
  URL' = URL /\ d = rewritten config domain0 /\ sub = IncludeSubdomains config.
Proof.
  unfold unitActions. intros [[= <- <- <-] | H]; [now repeat split|].
  destruct (scoped config domain0 URL); [|destruct H].
  destruct H as [[=] | H].
  destruct (selects config URL) as [k|]; [|destruct H].
  destruct H as [H | H]; [destruct k; discriminate|].
  apply In_loopActions in H as [[= <- <- <-] | (found & _ & [=])].
  now repeat split.
Qed.

Lemma unitActions_send URL r :
  In (ActSend r) (unitActions config domain0 URL) ->
  scoped config domain0 URL = true /\
  (r = base URL \/
   exists k found, r = expansion k found /\ selects config URL = Some k /\
                   In found (expand config (rewritten config domain0) k URL)).
Proof.
  unfold unitActions. intros [[=] | H].
  destruct (scoped config domain0 URL); [|destruct H].
  split; [reflexivity|].
  destruct H as [[= <-] | H]; [now left|]. right.
  destruct (selects config URL) as [k|]; [|destruct H].
  destruct H as [H | H]; [destruct k; discriminate|].
  apply In_loopActions in H as [[=] | (found & Hin & [= ->])].
  now exists k, found.
Qed.

Lemma unitActions_robots URL URL' :
  In (ActRobots URL') (unitActions config domain0 URL) <->
  URL' = URL /\ scoped config domain0 URL = true /\
  selects config URL = Some Robots.
Proof.
  unfold unitActions. split.
  - intros [[=] | H].
    destruct (scoped config domain0 URL); [|destruct H].
    destruct H as [[=] | H].
    destruct (selects config URL) as [k|]; [|destruct H].
    destruct H as [H | H].
    + destruct k; [injection H as ->; now repeat split | discriminate].
    + apply In_loopActions in H as [[=] | (found & _ & [=])].
  - intros (-> & -> & ->). simpl. auto.
Qed.

Lemma unitActions_source URL d URL' :
  In (ActSource d URL') (unitActions config domain0 URL) <->
  URL' = URL /\ d = rewritten config domain0 /\
  scoped config domain0 URL = true /\ selects config URL = Some Sources.
Proof.
  unfold unitActions. split.
  - intros [[=] | H].
    destruct (scoped config domain0 URL); [|destruct H].
    destruct H as [[=] | H].
    destruct (selects config URL) as [k|]; [|destruct H].
    destruct H as [H | H].
    + destruct k; [discriminate | injection H as -> ->; now repeat split].
    + apply In_loopActions in H as [[=] | (found & _ & [=])].
  - intros (-> & -> & -> & ->). simpl. auto.
Qed.

(** In a whole run, the base record comes before every other record. *)
Lemma unitActions_base_first URL h1 r h2 :
  unitActions config domain0 URL = h1 ++ ActSend r :: h2 ->
  r <> base URL -> In (ActSend (base URL)) h1.
Proof.
  unfold unitActions. intros H Hr.
  destruct h1 as [|a [|b h1]]; simpl in H.
  - discriminate.
  - injection H as _ H. destruct (scoped config domain0 URL); [|discriminate].
    injection H as H _. congruence.
  - injection H as _ H. destruct (scoped config domain0 URL); [|discriminate].
    injection H as <- _. simpl. auto.
Qed.

Lemma selects_robots URL :
  selects config URL = Some Robots <->
  mediaURLRegex URL = false /\ ParseWaybackRobots config = true /\
  robotsURLsRegex URL = true.
Proof.
  unfold selects.
  destruct (ParseWaybackRobots config), (ParseWaybackSource config),
    (mediaURLRegex URL), (robotsURLsRegex URL); simpl; split;
    try discriminate; try tauto; intros (? & ? & ?); discriminate.
Qed.

Lemma selects_sources URL :
  selects config URL = Some Sources <->
  mediaURLRegex URL = false /\ ParseWaybackSource config = true /\
  robotsURLsRegex URL = false.
Proof.
  unfold selects.
  destruct (ParseWaybackRobots config), (ParseWaybackSource config),
    (mediaURLRegex URL), (robotsURLsRegex URL); simpl; split;
    try discriminate; try tauto; intros (? & ? & ?); discriminate.
Qed.



End UnitClaims.

(** ** Traces as interleavings *)

Lemma flat_map_nil {A B} (l : list A) :
  flat_map (fun _ : A => @nil B) l = [].
Proof. induction l; simpl; auto. Qed.

Lemma flat_map_ext_In {A B} (f g : A -> list B) l :
  (forall x, In x l -> f x = g x) -> flat_map f l = flat_map g l.
Proof.
  induction l as [|x l IH]; intros H; simpl; [reflexivity|].
  rewrite (H x (or_introl eq_refl)), IH; [reflexivity|].
  intros y Hy. apply H. now right.
Qed.

Lemma proj_cons_same i a tr : proj i ((i, a) :: tr) = a :: proj i tr.
Proof. unfold proj. simpl. now rewrite Nat.eqb_refl. Qed.

Lemma proj_cons_other i j a tr : i <> j -> proj i ((j, a) :: tr) = proj i tr.
Proof.
  intros H. unfold proj. simpl. destruct (Nat.eqb_spec j i); [congruence | reflexivity].
Qed.

Lemma interleave_cons (ids : list nat) j a tr :
  NoDup ids -> j ∈ ids ->
  Permutation (flat_map (fun i => proj i ((j, a) :: tr)) ids)
              (a :: flat_map (fun i => proj i tr) ids).
Proof.
  induction 1 as [|i ids Hni Hnd IH]; intros Hj.
  - inversion Hj.
  - simpl. destruct (decide (i = j)) as [->|Hne].
    + rewrite proj_cons_same. simpl. apply perm_skip.
      apply Permutation_app_head.
      rewrite (flat_map_ext_In (fun i => proj i ((j, a) :: tr))
                 (fun i => proj i tr)); [reflexivity|].
      intros i Hi. apply proj_cons_other. intros ->.
      apply Hni, list_elem_of_In, Hi.
    + rewrite proj_cons_other by exact Hne.
      apply elem_of_cons in Hj as [Hj|Hj]; [congruence|].
      rewrite (IH Hj). symmetry. apply Permutation_middle.
Qed.

(** A trace is an interleaving of the actions of its units. *)
Lemma interleave n tr :
  (forall i a, In (i, a) tr -> i < n) ->
  Permutation (map snd tr) (flat_map (fun i => proj i tr) (seq 0 n)).
Proof.
  induction tr as [|[j a] tr IH]; intros Hb.
  - simpl. unfold proj. simpl. now rewrite flat_map_nil.
  - simpl. rewrite interleave_cons.
    + apply perm_skip, IH. intros i b Hin. apply (Hb i b). now right.
    + apply NoDup_seq.
    + apply elem_of_seq. specialize (Hb j a (or_introl eq_refl)). lia.
Qed.

Lemma flat_map_seq_lookup {A B} (f : A -> list B) (g : nat -> list B) (l : list A) k :
  (forall i x, l !! i = Some x -> g (k + i) = f x) ->
  flat_map g (seq k (length l)) = flat_map f l.
Proof.
  revert k. induction l as [|x l IH]; intros k H; simpl; [reflexivity|].
  rewrite <- (H 0 x eq_refl), Nat.add_0_r. f_equal.
  apply IH. intros i y Hi. rewrite <- (H (S i) y Hi). f_equal. lia.
Qed.

Lemma sends_flat_map {A} (f : A -> list Action) l :
  sends (flat_map f l) = flat_map (fun x => sends (f x)) l.
Proof.
  induction l as [|x l IH]; simpl; [reflexivity|].
  unfold sends in *. now rewrite flat_map_app, IH.
Qed.

Lemma In_sends r acts : In r (sends acts) <-> In (ActSend r) acts.
Proof.
  unfold sends. rewrite in_flat_map. split.
  - intros (a & Ha & Hr). destruct a; try destruct Hr as [<-|[]]; try destruct Hr.
    exact Ha.
  - intros H. exists (ActSend r). split; [exact H | now left].
Qed.


(** * The scanner and the patterns in full *)

(** ** The scanner *)

Lemma string_app_cons c s t : String c s +:+ t = String c (s +:+ t).
Proof. reflexivity. Qed.

Lemma string_app_nil_l t : EmptyString +:+ t = t.
Proof. reflexivity. Qed.

Ltac unapp := rewrite ?string_app_cons, ?string_app_nil_l in *.

Lemma len_app s t : len (s +:+ t) = (len s + len t)%N.
Proof.
  induction s as [|c s IH]; unapp; simpl; [reflexivity | rewrite IH; lia].
Qed.

Lemma allBytes_app f s t :
  allBytes f (s +:+ t) = allBytes f s && allBytes f t.
Proof.
  induction s as [|c s IH]; unapp; simpl; [reflexivity|].
  now rewrite IH, andb_assoc.
Qed.

Lemma allBytes_rev_append f s acc :
  allBytes f (rev_append s acc) = allBytes f s && allBytes f acc.
Proof.
  revert acc. induction s as [|c s IH]; intros acc; simpl; [reflexivity|].
  rewrite IH. simpl. destruct (f c), (allBytes f s); reflexivity.
Qed.

Lemma len_rev_append s acc : len (rev_append s acc) = (len s + len acc)%N.
Proof.
  revert acc. induction s as [|c s IH]; intros acc; simpl; [reflexivity|].
  rewrite IH. simpl. lia.
Qed.

Lemma allBytes_dropCR f s : allBytes f s = true -> allBytes f (dropCR s) = true.
Proof.
  induction s as [|c s IH]; [reflexivity|].
  destruct s as [|c' s'].
  - simpl. now destruct (Ascii.eqb c CR).
  - intros H. change (allBytes f (String c (dropCR (String c' s'))) = true).
    cbn [allBytes] in H |- *. apply andb_true_iff in H as [Hc H].
    rewrite Hc. exact (IH H).
Qed.

Lemma len_dropCR s : (len (dropCR s) <= len s)%N.
Proof.
  induction s as [|c s IH]; [reflexivity|].
  destruct s as [|c' s'].
  - simpl. destruct (Ascii.eqb c CR); simpl; lia.
  - change (len (String c (dropCR (String c' s'))) <= len (String c (String c' s')))%N.
    cbn [len] in IH |- *. lia.
Qed.

Lemma dropCR_plain s : endsWithCR s = false -> dropCR s = s.
Proof.
  induction s as [|c s IH]; [reflexivity|].
  destruct s as [|c' s'].
  - simpl. now intros ->.
  - intros H. change (String c (dropCR (String c' s')) = String c (String c' s')).
    f_equal. apply IH. exact H.
Qed.

Lemma rev_append_rev_append s acc t :
  rev_append (rev_append s acc) t = rev_append acc (s +:+ t).
Proof.
  revert acc t. induction s as [|c s IH]; intros acc t; unapp; simpl;
    [reflexivity|].
  now rewrite IH.
Qed.

Lemma string_app_nil s : s +:+ EmptyString = s.
Proof. induction s as [|c s IH]; unapp; [reflexivity | now rewrite IH]. Qed.

Lemma string_app_assoc s t u : (s +:+ t) +:+ u = s +:+ t +:+ u.
Proof. induction s as [|c s IH]; unapp; [reflexivity | now rewrite IH]. Qed.

(** Every token is free of line feeds and shorter than the largest token. *)
Lemma scanLines_tokens input line n token :
  allBytes notLF line = true -> n = len line -> (n < MaxScanTokenSize)%N ->
  In token (fst (scanLines input line n)) ->
  allBytes notLF token = true /\ (len token < MaxScanTokenSize)%N.
Proof.
  assert (Htok : forall line, allBytes notLF line = true ->
            (len line < MaxScanTokenSize)%N ->
            allBytes notLF (dropCR (rev line)) = true /\
            (len (dropCR (rev line)) < MaxScanTokenSize)%N).
  { intros l Hl Hn. split.
    - apply allBytes_dropCR. unfold rev. now rewrite allBytes_rev_append, Hl.
    - pose proof (len_dropCR (rev l)) as H. unfold rev in *.
      rewrite len_rev_append in H. simpl in H. lia. }
  revert line n. induction input as [|c input IH]; intros line n Hline Hn Hlt.
  - simpl. destruct (n =? 0)%N; simpl; [tauto|].
    intros [<- | []]. subst n. now apply Htok.
  - cbn [scanLines]. destruct (Ascii.eqb c LF) eqn:Ec.
    + destruct (scanLines input EmptyString 0) as [tokens err] eqn:E.
      simpl. intros [<- | Hin].
      * subst n. now apply Htok.
      * apply (IH EmptyString 0%N); [reflexivity | reflexivity | reflexivity|].
        now rewrite E.
    + destruct (MaxScanTokenSize <=? n + 1)%N eqn:El; [simpl; tauto|].
      apply N.leb_gt in El.
      apply IH; [|subst n; simpl; lia | lia].
      simpl. unfold notLF at 1. now rewrite Ec, Hline.
Qed.

(** The scan of one line that fits: its bytes join the line in progress. *)
Lemma scanLines_line l input line n :
  allBytes notLF l = true -> (n + len l < MaxScanTokenSize)%N ->
  scanLines (l +:+ input) line n
  = scanLines input (rev_append l line) (n + len l).
Proof.
  revert line n. induction l as [|c l IH]; intros line n Hl Hn.
  - unapp. simpl. now rewrite N.add_0_r.
  - change (String c l +:+ input) with (String c (l +:+ input)).
    cbn [allBytes] in Hl. apply andb_true_iff in Hl as [Hc Hl].
    unfold notLF in Hc. apply negb_true_iff in Hc.
    cbn [scanLines len rev_append]. rewrite Hc.
    cbn [len] in Hn.
    destruct (MaxScanTokenSize <=? n + 1)%N eqn:El;
      [apply N.leb_le in El; lia|].
    rewrite IH by (try exact Hl; lia). f_equal. lia.
Qed.

Lemma rev_rev_append l : rev (rev_append l EmptyString) = l.
Proof.
  unfold rev. rewrite rev_append_rev_append. cbn [rev_append].
  apply string_app_nil.
Qed.

Lemma plainLine_len_pos l : nonEmpty l = true -> (len l <> 0)%N.
Proof. destruct l; simpl; [discriminate | lia]. Qed.

(** Scanning gives back lines joined by line feeds, with or without a
    line feed after the last one. *)
Lemma scanLines_joinLines lines :
  Forall plainLine lines ->
  scanLines (joinLines lines) EmptyString 0 = (lines, None) /\
  fst (scanLines (joinLines lines +:+ String LF EmptyString) EmptyString 0)
  = match lines with [] => [EmptyString] | _ => lines end /\
  snd (scanLines (joinLines lines +:+ String LF EmptyString) EmptyString 0)
  = None.
Proof.
  induction 1 as [|l lines (Hne & Hlf & Hcr & Hlen) Hall IH].
  - repeat split; reflexivity.
  - destruct IH as (IH1 & IH2 & IH3).
    assert (Hl : dropCR (rev (rev_append l EmptyString)) = l)
      by (rewrite rev_rev_append; now apply dropCR_plain).
    pose proof (plainLine_len_pos l Hne) as Hpos.
    destruct lines as [|l' lines'].
    + cbn [joinLines]. split; [|split].
      * rewrite <- (string_app_nil l) at 1.
        rewrite scanLines_line, N.add_0_l by (try exact Hlf; simpl; lia).
        cbn [scanLines]. apply N.eqb_neq in Hpos. rewrite Hpos, Hl. reflexivity.
      * rewrite scanLines_line, N.add_0_l by (try exact Hlf; simpl; lia).
        cbn [scanLines]. rewrite Ascii.eqb_refl. cbn [scanLines].
        simpl. now rewrite Hl.
      * rewrite scanLines_line, N.add_0_l by (try exact Hlf; simpl; lia).
        cbn [scanLines]. rewrite Ascii.eqb_refl. reflexivity.
    + change (joinLines (l :: l' :: lines'))
        with (l +:+ String LF (joinLines (l' :: lines'))).
      split; [|split].
      * rewrite scanLines_line, N.add_0_l by (try exact Hlf; simpl; lia).
        cbn [scanLines]. rewrite Ascii.eqb_refl, IH1, Hl. reflexivity.
      * rewrite string_app_assoc.
        change (String LF (joinLines (l' :: lines')) +:+ String LF EmptyString)
          with (String LF (joinLines (l' :: lines') +:+ String LF EmptyString)).
        rewrite scanLines_line, N.add_0_l by (try exact Hlf; simpl; lia).
        cbn [scanLines]. rewrite Ascii.eqb_refl.
        destruct (scanLines (joinLines (l' :: lines') +:+ String LF EmptyString)
                    EmptyString 0) as [tokens err].
        cbn [fst] in IH2 |- *. now rewrite Hl, IH2.
      * rewrite string_app_assoc.
        change (String LF (joinLines (l' :: lines')) +:+ String LF EmptyString)
          with (String LF (joinLines (l' :: lines') +:+ String LF EmptyString)).
        rewrite scanLines_line, N.add_0_l by (try exact Hlf; simpl; lia).
        cbn [scanLines]. rewrite Ascii.eqb_refl.
        destruct (scanLines (joinLines (l' :: lines') +:+ String LF EmptyString)
                    EmptyString 0) as [tokens err].
        cbn [snd] in IH3 |- *. exact IH3.
Qed.

(** The scan stops with an error only on a run of [MaxScanTokenSize] bytes
    without a line feed. *)
Lemma scanLines_error_run input line n :
  (n < MaxScanTokenSize)%N ->
  snd (scanLines input line n) <> None ->
  snd (scanLines input line n) = Some ErrTooLong /\
  exists pre run post,
    input = pre +:+ run +:+ post /\ allBytes notLF run = true /\
    (len run = MaxScanTokenSize \/
     pre = EmptyString /\ (n + len run)%N = MaxScanTokenSize).
Proof.
  revert line n. induction input as [|c input IH]; intros line n Hn.
  - simpl. destruct (n =? 0)%N; simpl; congruence.
  - cbn [scanLines]. destruct (Ascii.eqb c LF) eqn:Ec.
    + destruct (scanLines input EmptyString 0) as [tokens err] eqn:E.
      cbn [snd]. intros Herr.
      destruct (IH EmptyString 0%N) as (He & pre & run & post & -> & Hrun & Hlen);
        [reflexivity | now rewrite E | ].
      rewrite E in He. split; [exact He|].
      exists (String c pre), run, post. split; [reflexivity|].
      split; [exact Hrun|]. left. destruct Hlen as [H | [_ H]]; [exact H | lia].
    + destruct (MaxScanTokenSize <=? n + 1)%N eqn:El.
      * intros _. split; [reflexivity|]. apply N.leb_le in El.
        exists EmptyString, (String c EmptyString), input.
        split; [reflexivity|]. split.
        -- simpl. unfold notLF. now rewrite Ec.
        -- right. split; [reflexivity|]. simpl. lia.
      * apply N.leb_gt in El. intros Herr.
        destruct (IH (String c line) (n + 1)%N El Herr)
          as (He & pre & run & post & -> & Hrun & Hlen).
        split; [exact He|].
        destruct Hlen as [H | [-> H]].
        -- exists (String c pre), run, post. auto.
        -- exists EmptyString, (String c run), post.
           split; [reflexivity|]. split.
           ++ simpl. unfold notLF at 1. now rewrite Ec, Hrun.
           ++ right. split; [reflexivity|]. simpl. lia.
Qed.

Lemma run_scanLines_error input line n pre run post :
  (n < MaxScanTokenSize)%N ->
  input = pre +:+ run +:+ post -> allBytes notLF run = true ->
  (MaxScanTokenSize <= len run)%N \/
  pre = EmptyString /\ (MaxScanTokenSize <= n + len run)%N ->
  snd (scanLines input line n) = Some ErrTooLong.
Proof.
  revert line n pre run. induction input as [|c input IH];
    intros line n pre run Hn Hin Hrun Hlen.
  - destruct pre; [|discriminate]. destruct run; [|discriminate].
    simpl in Hlen. destruct Hlen as [H | [_ H]]; lia.
  - cbn [scanLines]. destruct (Ascii.eqb c LF) eqn:Ec.
    + apply Ascii.eqb_eq in Ec. subst c.
      destruct pre as [|p pre].
      * destruct run as [|r run].
        -- simpl in Hlen. destruct Hlen as [H | [_ H]]; lia.
        -- unapp. injection Hin as <- _. discriminate.
      * unapp. injection Hin as <- Hin.
        destruct Hlen as [Hlen | [[=] _]].
        specialize (IH EmptyString 0%N pre run eq_refl Hin Hrun (or_introl Hlen)).
        destruct (scanLines input EmptyString 0). exact IH.
    + destruct (MaxScanTokenSize <=? n + 1)%N eqn:El; [reflexivity|].
      apply N.leb_gt in El.
      destruct pre as [|p pre].
      * destruct run as [|r run].
        -- simpl in Hlen. destruct Hlen as [H | [_ H]]; lia.
        -- unapp. injection Hin as <- Hin.
           cbn [allBytes] in Hrun. apply andb_true_iff in Hrun as [_ Hrun].
           apply (IH _ _ EmptyString run El Hin Hrun).
           right. split; [reflexivity|]. cbn [len] in Hlen.
           destruct Hlen as [H | [_ H]]; lia.
      * unapp. injection Hin as <- Hin.
        destruct Hlen as [Hlen | [[=] _]].
        apply (IH _ _ pre run El Hin Hrun). now left.
Qed.

Lemma dropCR_snoc l : dropCR (l +:+ String CR EmptyString) = l.
Proof.
  induction l as [|c l IH]; [reflexivity|]. unapp.
  destruct l as [|c' l']; [reflexivity|]. unapp.
  change (String c (dropCR (String c' (l' +:+ String CR EmptyString)))
          = String c (String c' l')).
  f_equal. exact IH.
Qed.

(** Scanning lines that each end in a carriage return and a line feed
    gives the lines, the empty ones too. *)
Lemma scanLines_linesCRLF lines :
  Forall (fun l => allBytes notLF l = true /\
                   (len l + 1 < MaxScanTokenSize)%N) lines ->
  scanLines (linesCRLF lines) EmptyString 0 = (lines, None).
Proof.
  induction 1 as [|l lines [Hlf Hlen] _ IH]; [reflexivity|].
  cbn [linesCRLF].
  change (l +:+ String CR (String LF (linesCRLF lines)))
    with (l +:+ String CR EmptyString +:+ String LF (linesCRLF lines)).
  rewrite <- string_app_assoc.
  rewrite scanLines_line, N.add_0_l.
  - cbn [scanLines]. rewrite Ascii.eqb_refl, IH, rev_rev_append, dropCR_snoc.
    reflexivity.
  - rewrite allBytes_app, Hlf. reflexivity.
  - rewrite len_app. simpl. lia.
Qed.

(** A line of [MaxScanTokenSize] bytes or more stops the scan before any
    token is handed out. *)
Lemma scanLines_overlong run post line n :
  (n < MaxScanTokenSize)%N -> allBytes notLF run = true ->
  (MaxScanTokenSize <= n + len run)%N ->
  scanLines (run +:+ post) line n = ([], Some ErrTooLong).
Proof.
  revert line n. induction run as [|c run IH]; intros line n Hn Hrun Hlen.
  - simpl in Hlen. lia.
  - unapp. cbn [allBytes] in Hrun. apply andb_true_iff in Hrun as [Hc Hrun].
    unfold notLF in Hc. apply negb_true_iff in Hc.
    cbn [scanLines]. rewrite Hc.
    destruct (MaxScanTokenSize <=? n + 1)%N eqn:El; [reflexivity|].
    apply N.leb_gt in El. apply IH; [exact El | exact Hrun|].
    cbn [len] in Hlen. lia.
Qed.

(** Lines that fit, then a line that does not: the scan hands out the
    lines that fit and stops with [ErrTooLong]. *)
Lemma scanLines_linesLF_overlong lines run post :
  Forall fits lines -> allBytes notLF run = true ->
  (MaxScanTokenSize <= len run)%N ->
  scanLines (linesLF lines +:+ run +:+ post) EmptyString 0
  = (map dropCR lines, Some ErrTooLong).
Proof.
  intros Hlines Hrun Hlen. induction Hlines as [|l lines [Hlf Hl] _ IH].
  - cbn [linesLF map]. unapp. apply scanLines_overlong;
      [reflexivity | exact Hrun | lia].
  - cbn [linesLF map]. rewrite string_app_assoc. unapp.
    rewrite scanLines_line, N.add_0_l by (try exact Hlf; lia).
    cbn [scanLines]. rewrite Ascii.eqb_refl, IH, rev_rev_append. reflexivity.
Qed.

(** A scan that stops with an error stops on a line that does not fit,
    after lines that fit. *)
Lemma scanLines_error_lines input line n :
  (n < MaxScanTokenSize)%N ->
  snd (scanLines input line n) <> None ->
  (exists run post,
      input = run +:+ post /\ allBytes notLF run = true /\
      (n + len run)%N = MaxScanTokenSize) \/
  (exists l0 lines run post,
      input = l0 +:+ String LF (linesLF lines +:+ run +:+ post) /\
      allBytes notLF l0 = true /\ (n + len l0 < MaxScanTokenSize)%N /\
      Forall fits lines /\ allBytes notLF run = true /\
      len run = MaxScanTokenSize).
Proof.
  revert line n. induction input as [|c input IH]; intros line n Hn.
  - simpl. destruct (n =? 0)%N; simpl; congruence.
  - cbn [scanLines]. destruct (Ascii.eqb c LF) eqn:Ec.
    + apply Ascii.eqb_eq in Ec. subst c.
      destruct (scanLines input EmptyString 0) as [tokens err] eqn:E.
      cbn [snd]. intros Herr. right. exists EmptyString.
      destruct (IH EmptyString 0%N) as
        [(run & post & -> & Hrun & Hlen)
        |(l0 & lines & run & post & -> & Hl0 & Hn0 & Hlines & Hrun & Hlen)];
        [reflexivity | now rewrite E | |].
      * exists [], run, post. unapp. cbn [linesLF]. unapp.
        repeat split; try assumption; try constructor; simpl; lia.
      * exists (l0 :: lines), run, post. unapp. cbn [linesLF].
        rewrite string_app_assoc. unapp.
        repeat split; try assumption; try (simpl; lia).
        constructor; [|exact Hlines]. split; [exact Hl0 | lia].
    + destruct (MaxScanTokenSize <=? n + 1)%N eqn:El.
      * intros _. left. apply N.leb_le in El.
        exists (String c EmptyString), input. split; [reflexivity|]. split.
        -- simpl. unfold notLF. now rewrite Ec.
        -- simpl. lia.
      * apply N.leb_gt in El. intros Herr.
        destruct (IH (String c line) (n + 1)%N El Herr) as
          [(run & post & -> & Hrun & Hlen)
          |(l0 & lines & run & post & -> & Hl0 & Hn0 & Hlines & Hrun & Hlen)].
        -- left. exists (String c run), post. split; [reflexivity|]. split.
           ++ simpl. unfold notLF at 1. now rewrite Ec, Hrun.
           ++ simpl. lia.
        -- right. exists (String c l0), lines, run, post.
           split; [reflexivity|]. split.
           ++ simpl. unfold notLF at 1. now rewrite Ec, Hl0.
           ++ repeat split; try assumption. simpl. lia.
Qed.

(** What [getWaybackURLs] returns when the scan of the body fails. *)
Lemma scan_failure_result body :
  snd (scanLines body EmptyString 0) <> None ->
  exists lines run post,
    body = linesLF lines +:+ run +:+ post /\
    Forall fits lines /\ allBytes notLF run = true /\
    len run = MaxScanTokenSize /\
    scanLines body EmptyString 0 = (map dropCR lines, Some ErrTooLong).
Proof.
  intros Herr.
  destruct (scanLines_error_lines body EmptyString 0%N eq_refl Herr) as
    [(run & post & Hb & Hrun & Hlen)
    |(l0 & lines & run & post & Hb & Hl0 & Hn0 & Hlines & Hrun & Hlen)].
  - exists [], run, post. rewrite N.add_0_l in Hlen.
    assert (E : body = linesLF [] +:+ run +:+ post) by exact Hb.
    split; [exact E|]. split; [constructor|]. split; [exact Hrun|].
    split; [exact Hlen|]. rewrite E.
    apply scanLines_linesLF_overlong; [constructor | exact Hrun | lia].
  - rewrite N.add_0_l in Hn0.
    assert (Hfit : Forall fits (l0 :: lines))
      by (constructor; [now split | exact Hlines]).
    assert (E : body = linesLF (l0 :: lines) +:+ run +:+ post).
    { rewrite Hb. cbn [linesLF]. rewrite string_app_assoc. reflexivity. }
    exists (l0 :: lines), run, post.
    split; [exact E|]. split; [exact Hfit|]. split; [exact Hrun|].
    split; [exact Hlen|]. rewrite E.
    apply scanLines_linesLF_overlong; [exact Hfit | exact Hrun | lia].
Qed.

Section IndexFacts.

Context {env : Environment}.

(** X1: the URLs that [getWaybackURLs] returns are not empty, hold no line
    feed, and are shorter than the largest token of the scanner. *)
Theorem getWaybackURLs_results_are_lines domain URL :
  In URL (fst (getWaybackURLs domain)) ->
  nonEmpty URL = true /\ allBytes notLF URL = true /\
  (len URL < MaxScanTokenSize)%N.
Proof.
  intros Hin. split; [exact (getWaybackURLs_nonEmpty domain URL Hin)|].
  unfold getWaybackURLs in Hin.
  destruct (SimpleGet (indexReqURL domain)) as [res|err]; [|destruct Hin].
  destruct (scanLines (Body res) EmptyString 0) as [tokens e] eqn:E.
  simpl in Hin. apply filter_In in Hin as [Hin _].
  apply (scanLines_tokens (Body res) EmptyString 0%N URL);
    [reflexivity | reflexivity | reflexivity | now rewrite E].
Qed.

(** X2: an index made of plain lines separated by line feeds, with or
    without a line feed at the end, comes back as these lines, in order and
    without an error. *)
Theorem getWaybackURLs_round_trip domain res lines :
  SimpleGet (indexReqURL domain) = inl res ->
  Forall plainLine lines ->
  Body res = joinLines lines \/
  Body res = joinLines lines +:+ String LF EmptyString ->
  getWaybackURLs domain = (lines, None).
Proof.
  intros Hget Hlines Hbody. unfold getWaybackURLs. rewrite Hget.
  assert (Hfilter : List.filter nonEmpty lines = lines).
  { clear -Hlines. induction Hlines as [|l lines (Hne & _) _ IH]; simpl;
      [reflexivity | now rewrite Hne, IH]. }
  destruct (scanLines_joinLines lines Hlines) as (H1 & H2 & H3).
  destruct Hbody as [-> | ->].
  - now rewrite H1, Hfilter.
  - destruct (scanLines (joinLines lines +:+ String LF EmptyString)
                EmptyString 0) as [tokens err].
    simpl in H2, H3. subst err tokens.
    destruct lines as [|l lines]; [reflexivity | now rewrite Hfilter].
Qed.

(** X4: [getWaybackURLs] returns an error exactly when the request fails
    or the body holds [MaxScanTokenSize] bytes in a row without a line
    feed; in the second case the error is [ErrTooLong]. *)
Theorem getWaybackURLs_error_iff domain :
  (snd (getWaybackURLs domain) <> None <->
   (exists err, SimpleGet (indexReqURL domain) = inr err) \/
   (exists res pre run post,
       SimpleGet (indexReqURL domain) = inl res /\
       Body res = pre +:+ run +:+ post /\
       allBytes notLF run = true /\ len run = MaxScanTokenSize)) /\
  (forall res, SimpleGet (indexReqURL domain) = inl res ->
               snd (getWaybackURLs domain) <> None ->
               snd (getWaybackURLs domain) = Some ErrTooLong).
Proof.
  unfold getWaybackURLs.
  destruct (SimpleGet (indexReqURL domain)) as [res|err].
  - destruct (scanLines (Body res) EmptyString 0) as [tokens e] eqn:E.
    cbn [snd]. split.
    + split.
      * intros He. right.
        destruct (scanLines_error_run (Body res) EmptyString 0%N)
          as (_ & pre & run & post & Hb & Hrun & Hlen);
          [reflexivity | now rewrite E |].
        exists res, pre, run, post. repeat split; try assumption.
        destruct Hlen as [H | [_ H]]; [exact H | lia].
      * intros [[err H] | (res' & pre & run & post & [= <-] & Hb & Hrun & Hlen)];
          [discriminate|].
        pose proof (run_scanLines_error (Body res) EmptyString 0%N pre run post
                      eq_refl Hb Hrun) as H.
        rewrite E in H. cbn [snd] in H. rewrite H; [discriminate|].
        left. lia.
    + intros res' _ He.
      destruct (scanLines_error_run (Body res) EmptyString 0%N) as [H _];
        [reflexivity | now rewrite E |].
      now rewrite E in H.
  - cbn [snd]. split.
    + split; [|discriminate]. intros _. left. now exists err.
    + discriminate.
Qed.

(** X3: an index whose lines each end in a carriage return and a line
    feed, each line free of line feeds and short enough to stay, with its
    carriage return, under the largest token, comes back as its lines that
    are not empty, in order, without the carriage returns and without an
    error. *)
Theorem getWaybackURLs_crlf domain res lines :
  SimpleGet (indexReqURL domain) = inl res ->
  Forall (fun l => allBytes notLF l = true /\
                   (len l + 1 < MaxScanTokenSize)%N) lines ->
  Body res = linesCRLF lines ->
  getWaybackURLs domain = (List.filter nonEmpty lines, None).
Proof.
  intros Hget Hlines Hbody. unfold getWaybackURLs.
  now rewrite Hget, Hbody, (scanLines_linesCRLF lines Hlines).
Qed.

(** X5: [getWaybackSnapshots] returns an error exactly when the request
    fails, or the response has a content length other than zero and its
    body does not decode; a response with content length zero gives no
    snapshot and no error, whatever its body. *)
Theorem getWaybackSnapshots_error_iff URL :
  (snd (getWaybackSnapshots URL) <> None <->
   (exists err, SimpleGet (snapshotsReqURL URL) = inr err) \/
   (exists res, SimpleGet (snapshotsReqURL URL) = inl res /\
                ContentLength res <> 0%Z /\
                snd (jsonUnmarshal (Body res)) <> None)) /\
  (forall res, SimpleGet (snapshotsReqURL URL) = inl res ->
               ContentLength res = 0%Z ->
               getWaybackSnapshots URL = ([], None)) /\
  (forall res, SimpleGet (snapshotsReqURL URL) = inl res ->
               ContentLength res <> 0%Z ->
               snd (getWaybackSnapshots URL) = snd (jsonUnmarshal (Body res))).
Proof.
  unfold getWaybackSnapshots.
  destruct (SimpleGet (snapshotsReqURL URL)) as [res|err].
  - destruct (ContentLength res =? 0)%Z eqn:El.
    + apply Z.eqb_eq in El. split; [|split].
      * split; [simpl; congruence|].
        intros [[err H] | (res' & [= <-] & Hne & _)]; [discriminate | contradiction].
      * reflexivity.
      * intros res' [= <-] Hne. contradiction.
    + apply Z.eqb_neq in El.
      assert (Hsnd : snd (match jsonUnmarshal (Body res) with
                          | (snapshots, Some err) => (snapshots, Some err)
                          | (snapshots, None) =>
                              if (length snapshots <? 2)%nat
                              then (snapshots, None)
                              else (skipn 1 snapshots, None)
                          end) = snd (jsonUnmarshal (Body res))).
      { destruct (jsonUnmarshal (Body res)) as [snapshots [e|]]; [reflexivity|].
        now destruct (length snapshots <? 2)%nat. }
      split; [|split].
      * rewrite Hsnd. split.
        -- intros H. right. now exists res.
        -- intros [[err H] | (res' & [= <-] & _ & H)]; [discriminate | exact H].
      * intros res' [= <-] Hz. contradiction.
      * intros res' [= <-] _. exact Hsnd.
  - cbn [snd]. split; [|split]; try discriminate.
    split; [|discriminate]. intros _. left. now exists err.
Qed.

End IndexFacts.

(** ** The patterns *)

Lemma skip_length d r : skip (String.length d) (d +:+ r) = r.
Proof. induction d as [|c d IH]; unapp; simpl; [now destruct r | exact IH]. Qed.

Lemma skip_eq n s r :
  skip n s = r -> r <> EmptyString ->
  exists d, s = d +:+ r /\ String.length d = n.
Proof.
  revert s. induction n as [|n IH]; intros s H Hr.
  - exists EmptyString. split; [|reflexivity]. destruct s; simpl in H; now subst.
  - destruct s as [|c s]; simpl in H; [congruence|].
    destruct (IH s H Hr) as (d & -> & Hd).
    exists (String c d). split; [reflexivity | simpl; now rewrite Hd].
Qed.

Lemma robotsRest_split s :
  robotsRest s = true ->
  exists X t, s = X +:+ t /\ allBytes notSpaceQuote X = true /\
              robotsEnd t = true.
Proof.
  induction s as [|c s IH]; cbn [robotsRest]; intros H.
  - apply orb_true_iff in H as [H | H]; [|discriminate].
    now exists EmptyString, EmptyString.
  - apply orb_true_iff in H as [H | H].
    + now exists EmptyString, (String c s).
    + apply andb_true_iff in H as [Hc H].
      destruct (IH H) as (X & t & -> & HX & Ht).
      exists (String c X), t. split; [reflexivity|]. split; [|exact Ht].
      simpl. now rewrite Hc, HX.
Qed.

(** [/robots.txt$] accepts [/robots], one rune other than a line feed (or
    one undecodable byte), and [txt]. *)
Lemma robotsEnd_iff t :
  robotsEnd t = true <->
  exists dot,
    t = "/robots" +:+ dot +:+ "txt" /\
    dot <> String LF EmptyString /\
    runeWidth (dot +:+ "txt") = String.length dot.
Proof.
  unfold robotsEnd. split.
  - destruct (TrimPrefix t "/robots") as [[|c t1]|] eqn:E; try discriminate.
    apply TrimPrefix_spec in E. intros H.
    apply andb_true_iff in H as [Hc H]. apply String.eqb_eq in H.
    destruct (skip_eq _ _ _ H) as (dot & Hdot & Hlen); [discriminate|].
    exists dot. rewrite <- Hdot. split; [exact E|]. split; [|now rewrite Hlen].
    intros ->. unapp. injection Hdot as -> _. discriminate.
  - intros (dot & -> & Hlf & Hw).
    assert (E : TrimPrefix ("/robots" +:+ dot +:+ "txt") "/robots"
                = Some (dot +:+ "txt")) by (now apply TrimPrefix_spec).
    rewrite E. destruct dot as [|c dot]; [discriminate Hw|].
    rewrite Hw, skip_length.
    change (String c dot +:+ "txt") with (String c (dot +:+ "txt")).
    cbv iota. rewrite andb_true_iff. split; [|reflexivity].
    apply negb_true_iff, Ascii.eqb_neq. intros ->.
    simpl in Hw. destruct dot; [contradiction | discriminate].
Qed.

(** The shape of what [robotsAuthority] accepts. *)
Lemma robotsAuthority_shape r :
  robotsAuthority r = true <->
  exists X dot,
    r = "://" +:+ X +:+ "/robots" +:+ dot +:+ "txt" /\
    X <> EmptyString /\ allBytes notSpaceQuote X = true /\
    dot <> String LF EmptyString /\
    runeWidth (dot +:+ "txt") = String.length dot.
Proof.
  unfold robotsAuthority. split.
  - destruct (TrimPrefix r "://") as [[|c s]|] eqn:E; try discriminate.
    apply TrimPrefix_spec in E. intros H.
    apply andb_true_iff in H as [Hc H].
    destruct (robotsRest_split s H) as (X & t & -> & HX & Ht).
    apply robotsEnd_iff in Ht as (dot & -> & Hlf & Hw).
    exists (String c X), dot. split; [exact E|]. split; [discriminate|].
    split; [simpl; now rewrite Hc, HX|]. now split.
  - intros (X & dot & -> & HX & Hall & Hlf & Hw).
    destruct X as [|c X]; [contradiction|].
    assert (E : TrimPrefix ("://" +:+ String c X +:+ "/robots" +:+ dot +:+ "txt")
                           "://"
                = Some (String c (X +:+ "/robots" +:+ dot +:+ "txt")))
      by (now apply TrimPrefix_spec).
    rewrite E. cbn [allBytes] in Hall. apply andb_true_iff in Hall as [Hc Hall].
    rewrite Hc. apply robotsRest_app; [exact Hall|].
    apply robotsEnd_iff. now exists dot.
Qed.

(** The shape of the URLs that [robotsURLsRegex] accepts. *)
Lemma robotsURLsRegex_shape URL :
  robotsURLsRegex URL = true <->
  exists (secure : bool) X dot,
    URL = (if secure then "https" else "http") +:+ "://" +:+ X
          +:+ "/robots" +:+ dot +:+ "txt" /\
    X <> EmptyString /\ allBytes notSpaceQuote X = true /\
    dot <> String LF EmptyString /\
    runeWidth (dot +:+ "txt") = String.length dot.
Proof.
  unfold robotsURLsRegex. split.
  - destruct (TrimPrefix URL "http") as [r|] eqn:E; [|discriminate].
    apply TrimPrefix_spec in E. intros H. apply orb_true_iff in H as [H | H].
    + apply robotsAuthority_shape in H as (X & dot & -> & H). now exists false, X, dot.
    + destruct (TrimPrefix r "s") as [r'|] eqn:E'; [|discriminate].
      apply TrimPrefix_spec in E'. apply robotsAuthority_shape in H as (X & dot & -> & H).
      subst r URL. now exists true, X, dot.
  - intros (secure & X & dot & -> & H).
    assert (Ha : robotsAuthority ("://" +:+ X +:+ "/robots" +:+ dot +:+ "txt") = true)
      by (apply robotsAuthority_shape; now exists X, dot).
    destruct secure.
    + assert (E : TrimPrefix ("https" +:+ "://" +:+ X +:+ "/robots" +:+ dot +:+ "txt")
                             "http"
                  = Some ("s" +:+ "://" +:+ X +:+ "/robots" +:+ dot +:+ "txt"))
        by (now apply TrimPrefix_spec).
      rewrite E.
      assert (E' : TrimPrefix ("s" +:+ "://" +:+ X +:+ "/robots" +:+ dot +:+ "txt")
                              "s"
                   = Some ("://" +:+ X +:+ "/robots" +:+ dot +:+ "txt"))
        by (now apply TrimPrefix_spec).
      rewrite E', Ha. apply orb_true_r.
    + assert (E : TrimPrefix ("http" +:+ "://" +:+ X +:+ "/robots" +:+ dot +:+ "txt")
                             "http"
                  = Some ("://" +:+ X +:+ "/robots" +:+ dot +:+ "txt"))
        by (now apply TrimPrefix_spec).
      now rewrite E, Ha.
Qed.

(** X6: [robotsURLsRegex] accepts exactly the URLs made of [http://] or
    [https://], one or more bytes other than space and double quote,
    [/robots], one rune other than a line feed, and [txt] up to the end. *)
Theorem robotsURLsRegex_iff URL :
  robotsURLsRegex URL = true <->
  exists (secure : bool) X dot,
    URL = (if secure then "https" else "http") +:+ "://" +:+ X
          +:+ "/robots" +:+ dot +:+ "txt" /\
    X <> EmptyString /\ allBytes notSpaceQuote X = true /\
    dot <> String LF EmptyString /\
    runeWidth (dot +:+ "txt") = String.length dot.
Proof.
  unfold robotsURLsRegex. split.
  - destruct (TrimPrefix URL "http") as [r|] eqn:E; [|discriminate].
    apply TrimPrefix_spec in E. intros H. apply orb_true_iff in H as [H | H].
    + apply robotsAuthority_shape in H as (X & dot & -> & H). now exists false, X, dot.
    + destruct (TrimPrefix r "s") as [r'|] eqn:E'; [|discriminate].
      apply TrimPrefix_spec in E'. apply robotsAuthority_shape in H as (X & dot & -> & H).
      subst r URL. now exists true, X, dot.
  - intros (secure & X & dot & -> & H).
    assert (Ha : robotsAuthority ("://" +:+ X +:+ "/robots" +:+ dot +:+ "txt") = true)
      by (apply robotsAuthority_shape; now exists X, dot).
    destruct secure.
    + assert (E : TrimPrefix ("https" +:+ "://" +:+ X +:+ "/robots" +:+ dot +:+ "txt")
                             "http"
                  = Some ("s" +:+ "://" +:+ X +:+ "/robots" +:+ dot +:+ "txt"))
        by (now apply TrimPrefix_spec).
      rewrite E.
      assert (E' : TrimPrefix ("s" +:+ "://" +:+ X +:+ "/robots" +:+ dot +:+ "txt")
                              "s"
                   = Some ("://" +:+ X +:+ "/robots" +:+ dot +:+ "txt"))
        by (now apply TrimPrefix_spec).
      rewrite E', Ha. apply orb_true_r.
    + assert (E : TrimPrefix ("http" +:+ "://" +:+ X +:+ "/robots" +:+ dot +:+ "txt")
                             "http"
                  = Some ("://" +:+ X +:+ "/robots" +:+ dot +:+ "txt"))
        by (now apply TrimPrefix_spec).
      now rewrite E, Ha.
Qed.

Lemma lowerAlnum_toLower p :
  lowerAlnum p = true ->
  toLower p = p /\ toLower (toUpper p) = p.
Proof.
  destruct p as [[] [] [] [] [] [] [] []]; intros H; try discriminate H;
    split; reflexivity.
Qed.

Lemma foldRune_ascii p c s r :
  lowerAlnum p = true -> isASCII c = true ->
  foldRune p (String c s) = Some r -> r = s /\ toLower c = p.
Proof.
  intros Hp Hc. destruct (lowerAlnum_toLower p Hp) as [Hl Hu].
  unfold foldRune. rewrite Hl.
  destruct (Ascii.eqb c p || Ascii.eqb c (toUpper p) || Ascii.eqb c p) eqn:E.
  - intros [= <-]. split; [reflexivity|].
    apply orb_true_iff in E as [E | E];
      [apply orb_true_iff in E as [E | E]|];
      apply Ascii.eqb_eq in E; subst c; assumption.
  - assert (H197 : Ascii.eqb c "197" = false)
      by (apply Ascii.eqb_neq; intros ->; discriminate).
    assert (H226 : Ascii.eqb c "226" = false)
      by (apply Ascii.eqb_neq; intros ->; discriminate).
    cbn [TrimPrefix]. rewrite H197, H226.
    destruct (Ascii.eqb p "s"); [discriminate|].
    destruct (Ascii.eqb p "k"); discriminate.
Qed.

Lemma foldPrefix_ascii ext s rest :
  allBytes lowerAlnum ext = true -> allBytes isASCII s = true ->
  foldPrefix ext s = Some rest ->
  exists ext', s = ext' +:+ rest /\ ToLower ext' = ext.
Proof.
  revert s. induction ext as [|p ext IH]; intros s Hext Hs; cbn [foldPrefix].
  - intros [= <-]. now exists EmptyString.
  - cbn [allBytes] in Hext. apply andb_true_iff in Hext as [Hp Hext].
    destruct s as [|c s]; [discriminate|].
    cbn [allBytes] in Hs. apply andb_true_iff in Hs as [Hc Hs].
    destruct (foldRune p (String c s)) as [s'|] eqn:E; [|discriminate].
    destruct (foldRune_ascii p c s s' Hp Hc E) as [-> Hlow].
    intros H. destruct (IH s Hext Hs H) as (ext' & -> & <-).
    exists (String c ext'). split; [reflexivity|]. simpl. now rewrite Hlow.
Qed.

Lemma mediaURLRegex_split URL :
  mediaURLRegex URL = true ->
  exists pre s, URL = pre +:+ s /\ mediaAt s = true.
Proof.
  induction URL as [|c URL IH]; cbn [mediaURLRegex]; intros H.
  - apply orb_true_iff in H as [H | H]; discriminate.
  - apply orb_true_iff in H as [H | H].
    + now exists EmptyString, (String c URL).
    + destruct (IH H) as (pre & s & -> & Hs). now exists (String c pre), s.
Qed.

(** X7: on a URL made of ASCII bytes, [mediaURLRegex] matches exactly when
    the URL has a listed extension, in any case of its letters, followed by
    the end of the URL, a question mark or a hash. *)
Theorem mediaURLRegex_ascii_iff URL :
  allBytes isASCII URL = true ->
  mediaURLRegex URL = true <-> hasMediaExtension URL.
Proof.
  intros Hascii. split; [|apply hasMediaExtension_match].
  intros H. destruct (mediaURLRegex_split URL H) as (pre & s & -> & Hs).
  rewrite allBytes_app in Hascii. apply andb_true_iff in Hascii as [_ Hascii].
  destruct s as [|c s]; [discriminate|]. cbn [mediaAt] in Hs.
  apply andb_true_iff in Hs as [Hc Hs]. apply Ascii.eqb_eq in Hc. subst c.
  apply existsb_exists in Hs as (ext & Hin & Hs).
  destruct (foldPrefix ext s) as [rest|] eqn:E; [|discriminate].
  cbn [allBytes] in Hascii. apply andb_true_iff in Hascii as [_ Hascii].
  assert (Hext : allBytes lowerAlnum ext = true).
  { assert (Hall : forallb (allBytes lowerAlnum) mediaExtensions = true)
      by reflexivity.
    rewrite forallb_forall in Hall. now apply Hall. }
  destruct (foldPrefix_ascii ext s rest Hext Hascii E) as (ext' & -> & <-).
  exists pre, ext', rest. split; [reflexivity|]. split; [exact Hin|].
  destruct rest as [|r rest]; [now left|]. right. exists rest.
  simpl in Hs. apply orb_true_iff in Hs as [Hr | Hr];
    apply Ascii.eqb_eq in Hr; subst r; [now left | now right].
Qed.

(** ** The claims about [Run] *)

Section RunClaims.

Context {env : Environment}.
Variable config : Configuration.
Variable domain0 : string.

Lemma reachable_unit st i u :
  reachable config domain0 st -> units st !! i = Some u ->
  wf config domain0 u /\
  proj i (trace st) = hist config domain0 u /\
  exists rest,
    unitActions config domain0 (unitURL u) = proj i (trace st) ++ rest.
Proof.
  intros Hr Hi. destruct (inv_units _ _ _ (reachable_Inv _ _ _ Hr) i u Hi)
    as [Hwf Hproj].
  split; [exact Hwf|]. split; [exact Hproj|].
  rewrite Hproj. now apply hist_prefix.
Qed.

(** Every action of the trace is an action of the run of its unit. *)
Lemma trace_owner st i a :
  reachable config domain0 st -> In (i, a) (trace st) ->
  exists u, units st !! i = Some u /\
            In a (unitActions config domain0 (unitURL u)).
Proof.
  intros Hr Hin.
  pose proof (inv_trace _ _ _ (reachable_Inv _ _ _ Hr) i a Hin) as Hlt.
  apply lookup_lt_is_Some in Hlt as [u Hi]. exists u. split; [exact Hi|].
  destruct (reachable_unit st i u Hr Hi) as (_ & _ & rest & ->).
  apply in_or_app. left. now apply In_proj.
Qed.

Lemma done_actions st i URL a :
  reachable config domain0 st -> units st !! i = Some (UDone URL) ->
  In (i, a) (trace st) <-> In a (unitActions config domain0 URL).
Proof.
  intros Hr Hi. destruct (reachable_unit st i _ Hr Hi) as (_ & Hproj & _).
  simpl in Hproj. now rewrite <- Hproj, In_proj.
Qed.

Lemma rewritten_wildcard :
  IncludeSubdomains config = true ->
  rewritten config domain0 = "*." +:+ domain0.
Proof. unfold rewritten. now intros ->. Qed.

(** C9: with [IncludeSubdomains], as soon as a unit exists the captured
    variable holds the rewritten string; every call of [IsInScope] gets it
    as the domain, and so does every call of [parseWaybackSource]. *)
Theorem scope_checks_read_rewritten_domain st :
  reachable config domain0 st -> IncludeSubdomains config = true ->
  (units st <> [] -> domain st = "*." +:+ domain0) /\
  (forall i URL d sub,
      In (i, ActScope URL d sub) (trace st) ->
      d = "*." +:+ domain0 /\ sub = true) /\
  (forall i d URL,
      In (i, ActSource d URL) (trace st) -> d = "*." +:+ domain0).
Proof.
  intros Hr Hsub. rewrite <- (rewritten_wildcard Hsub). split; [|split].
  - intros Hne. destruct (units st) as [|u us] eqn:E; [contradiction|].
    apply (Inv_producer_started config domain0 st 0 u).
    + now apply reachable_Inv.
    + now rewrite E.
  - intros i URL d sub Hin.
    destruct (trace_owner st i _ Hr Hin) as (u & _ & Ha).
    apply unitActions_scope in Ha as (_ & -> & ->). now split.
  - intros i d URL Hin.
    destruct (trace_owner st i _ Hr Hin) as (u & _ & Ha).
    now apply unitActions_source in Ha as (_ & -> & _).
Qed.

Lemma expansion_not_base k found URL : expansion k found <> base URL.
Proof. unfold expansion, base. destruct k; discriminate. Qed.

(** C10: every record of the trace was sent by a unit whose URL passed
    the first scope check, and it is either the base record of that unit
    or an expansion record that the base record of the same unit precedes;
    a unit whose URL fails the first scope check sends nothing. *)
Theorem base_record_precedes_expansions st :
  reachable config domain0 st ->
  (forall t1 i r t2,
      trace st = t1 ++ (i, ActSend r) :: t2 ->
      exists u,
        units st !! i = Some u /\
        IsInScope (unitURL u) (rewritten config domain0)
                  (IncludeSubdomains config) = true /\
        (r = base (unitURL u) \/
         (exists k found, r = expansion k found) /\
         In (i, ActSend (base (unitURL u))) t1)) /\
  (forall i u r,
      units st !! i = Some u ->
      IsInScope (unitURL u) (rewritten config domain0)
                (IncludeSubdomains config) = false ->
      ~ In (i, ActSend r) (trace st)).
Proof.
  intros Hr. split.
  - intros t1 i r t2 Htr.
    assert (Hin : In (i, ActSend r) (trace st))
      by (rewrite Htr; apply in_or_app; right; now left).
    destruct (trace_owner st i _ Hr Hin) as (u & Hi & Ha).
    exists u. split; [exact Hi|].
    destruct (unitActions_send _ _ _ _ Ha) as [Hs Hkind].
    split; [exact Hs|].
    destruct Hkind as [-> | (k & found & -> & _ & _)]; [now left|]. right.
    split; [now exists k, found|].
    destruct (reachable_unit st i u Hr Hi) as (_ & _ & rest & Hrest).
    rewrite Htr, proj_app, proj_cons_same, <- app_assoc in Hrest.
    simpl in Hrest.
    apply unitActions_base_first in Hrest; [|apply expansion_not_base].
    now apply In_proj.
  - intros i u r Hi Hout Hin.
    destruct (trace_owner st i _ Hr Hin) as (u' & Hi' & Ha).
    rewrite Hi in Hi'. injection Hi' as <-.
    destruct (unitActions_send _ _ _ _ Ha) as [Hs _].
    unfold scoped in Hs. congruence.
Qed.


(** C6, amended: for a unit whose URL is in scope and is not a media URL,
    with a flag enabled, the robots expander is called only if
    [ParseWaybackRobots] is set and the URL matches [robotsURLsRegex], and
    is called by the time the unit returns if so; the source expander is
    called only if [ParseWaybackSource] is set and the URL does not match,
    and is called by the time the unit returns if so; a URL that matches
    is never handed to the source expander.  The pattern accepts exactly
    the URLs made of [http://] or [https://], one or more bytes other than
    space and double quote, [/robots], one rune other than a line feed,
    and [txt] up to the end. *)
Theorem expander_choice st i u :
  reachable config domain0 st -> units st !! i = Some u ->
  IsInScope (unitURL u) (rewritten config domain0)
            (IncludeSubdomains config) = true ->
  mediaURLRegex (unitURL u) = false ->
  ParseWaybackRobots config = true \/ ParseWaybackSource config = true ->
  (In (i, ActRobots (unitURL u)) (trace st) ->
   ParseWaybackRobots config = true /\ robotsURLsRegex (unitURL u) = true) /\
  (isDone u = true ->
   ParseWaybackRobots config = true /\ robotsURLsRegex (unitURL u) = true ->
   In (i, ActRobots (unitURL u)) (trace st)) /\
  (In (i, ActSource (rewritten config domain0) (unitURL u)) (trace st) ->
   ParseWaybackSource config = true /\ robotsURLsRegex (unitURL u) = false) /\
  (isDone u = true ->
   ParseWaybackSource config = true /\ robotsURLsRegex (unitURL u) = false ->
   In (i, ActSource (rewritten config domain0) (unitURL u)) (trace st)) /\
  (robotsURLsRegex (unitURL u) = true ->
   forall d URL, ~ In (i, ActSource d URL) (trace st)) /\
  (forall URL,
      robotsURLsRegex URL = true <->
      exists (secure : bool) X dot,
        URL = (if secure then "https" else "http") +:+ "://" +:+ X
              +:+ "/robots" +:+ dot +:+ "txt" /\
        X <> EmptyString /\ allBytes notSpaceQuote X = true /\
        dot <> String LF EmptyString /\
        runeWidth (dot +:+ "txt") = String.length dot).
Proof.
  intros Hr Hi Hscope Hmedia Hflag.
  destruct (reachable_unit st i u Hr Hi) as (_ & Hproj & rest & Hrest).
  assert (Hown : forall a, In (i, a) (trace st) ->
                           In a (unitActions config domain0 (unitURL u))).
  { intros a Hin. rewrite Hrest. apply in_or_app. left. now apply In_proj. }
  assert (Hdone : isDone u = true -> forall a,
                    In a (unitActions config domain0 (unitURL u)) ->
                    In (i, a) (trace st)).
  { intros Hd a Ha. destruct u; try discriminate.
    simpl in *. now apply (done_actions st i URL0 a Hr Hi). }
  split; [|split; [|split; [|split; [|split]]]].
  - intros Hin. apply Hown, unitActions_robots in Hin as (_ & _ & H).
    now apply selects_robots in H as (_ & ? & ?).
  - intros Hd [HR Hre]. apply (Hdone Hd), unitActions_robots.
    split; [reflexivity|]. split; [exact Hscope|].
    now apply selects_robots.
  - intros Hin. apply Hown, unitActions_source in Hin as (_ & _ & _ & H).
    now apply selects_sources in H as (_ & ? & ?).
  - intros Hd [HS Hre]. apply (Hdone Hd), unitActions_source.
    split; [reflexivity|]. split; [reflexivity|]. split; [exact Hscope|].
    now apply selects_sources.
  - intros Hre d URL Hin.
    apply Hown, unitActions_source in Hin as (_ & _ & _ & H).
    apply selects_sources in H as (_ & _ & H). congruence.
  - intros URL. apply robotsURLsRegex_shape.
Qed.

Lemma In_loopActions_send k URL seen found :
  scoped config domain0 URL = true -> In found seen ->
  In (ActSend (expansion k found)) (loopActions config domain0 k URL seen).
Proof.
  intros Hs Hin. unfold loopActions. apply in_flat_map. exists found.
  split; [exact Hin|]. rewrite Hs. simpl. auto.
Qed.

(** C1, evaluated on the code: once a unit has returned, every value its
    expander produced has been sent as an expansion record, and every
    scope check the unit made was made on the URL of the unit itself:
    the values of the expander are sent without a check of their own. *)
Theorem extracted_urls_sent_unchecked st i URL k found :
  reachable config domain0 st -> units st !! i = Some (UDone URL) ->
  IsInScope URL (rewritten config domain0) (IncludeSubdomains config) = true ->
  selects config URL = Some k ->
  In found (expand config (rewritten config domain0) k URL) ->
  In (expansion k found) (sent st) /\
  In (i, ActSend (expansion k found)) (trace st) /\
  (forall URL' d sub, In (i, ActScope URL' d sub) (trace st) -> URL' = URL).
Proof.
  intros Hr Hi Hscope Hk Hfound.
  assert (Hin : In (i, ActSend (expansion k found)) (trace st)).
  { apply (done_actions st i URL _ Hr Hi). unfold unitActions.
    fold (scoped config domain0 URL) in Hscope. rewrite Hscope, Hk.
    right. right. right. now apply In_loopActions_send. }
  split; [|split].
  - unfold sent. apply In_sends, in_map_iff.
    now exists (i, ActSend (expansion k found)).
  - exact Hin.
  - intros URL' d sub Hs. apply (done_actions st i URL _ Hr Hi) in Hs.
    now apply unitActions_scope in Hs as (-> & _ & _).
Qed.

(** *** Runs with both expansion flags off *)

Lemma step_trace c st st' :
  step config c st = Some st' -> exists t, trace st' = trace st ++ t.
Proof.
  destruct c as [| |i]; simpl.
  - unfold pstep. intros H. exists []. rewrite app_nil_r.
    destruct (producer st) as [| |[|URL results]|].
    + now injection H as <-.
    + destruct (getWaybackURLs (domain st)). now injection H as <-.
    + now injection H as <-.
    + destruct (nonEmpty URL).
      * destruct (dispatcher st); try discriminate. now injection H as <-.
      * now injection H as <-.
    + discriminate.
  - unfold dstep. intros H. exists []. rewrite app_nil_r.
    destruct (dispatcher st).
    + destruct (producer st); try discriminate. now injection H as <-.
    + destruct (wg st =? 0)%Z; [|discriminate]. now injection H as <-.
    + discriminate.
  - destruct (units st !! i) as [u|]; [|discriminate].
    destruct (ustep config (domain st) u) as [[u' acts]|]; [|discriminate].
    intros H. injection H as <-. simpl. eauto.
Qed.

Lemma exec_trace cs st st' :
  exec config cs st = Some st' -> exists t, trace st' = trace st ++ t.
Proof.
  revert st. induction cs as [|c cs IH]; simpl; intros st H.
  - injection H as <-. exists []. now rewrite app_nil_r.
  - destruct (step config c st) as [st1|] eqn:Hstep; [|discriminate].
    destruct (step_trace c st st1 Hstep) as [t1 H1].
    destruct (IH st1 H) as [t2 H2].
    exists (t1 ++ t2). now rewrite H2, H1, app_assoc.
Qed.

(** The records of a trace are those of the histories of the units. *)
Lemma sent_units st :
  reachable config domain0 st ->
  Permutation (sent st)
              (flat_map (fun u => sends (hist config domain0 u)) (units st)).
Proof.
  intros Hr. pose proof (reachable_Inv _ _ _ Hr) as [_ Hu Ht _ _ _].
  unfold sent.
  transitivity
    (sends (flat_map (fun i => proj i (trace st)) (seq 0 (length (units st))))).
  { apply Permutation_flat_map, interleave, Ht. }
  rewrite sends_flat_map.
  rewrite (flat_map_seq_lookup (fun u => sends (hist config domain0 u))
             (fun i => sends (proj i (trace st))) (units st) 0).
  - reflexivity.
  - intros i u Hi. simpl. destruct (Hu i u Hi) as [_ ->]. reflexivity.
Qed.

Lemma closed_stream st :
  reachable config domain0 st -> closed st ->
  exists URLs, units st = map UDone URLs /\ URLs = stream config domain0.
Proof.
  intros Hr Hc. pose proof (reachable_Inv _ _ _ Hr) as HI.
  destruct (closed_barrier _ _ _ HI Hc) as (Hp & Hall & _).
  pose proof (inv_stream _ _ _ HI) as Hs. rewrite Hp in Hs.
  exists (map unitURL (units st)). split; [|exact Hs].
  clear -Hall. induction Hall as [|u us Hu _ IH]; simpl; [reflexivity|].
  rewrite <- IH. destruct u; try discriminate. reflexivity.
Qed.




(** *** Failure of the index fetcher *)

Lemma failed_index_no_units st :
  snd (getWaybackURLs (rewritten config domain0)) <> None ->
  reachable config domain0 st ->
  units st = [] /\ trace st = [].
Proof.
  intros Herr Hr. pose proof (reachable_Inv _ _ _ Hr) as [_ _ Ht _ _ Hs].
  assert (Hu : units st = []).
  { destruct (snd (getWaybackURLs (rewritten config domain0))) as [e|] eqn:E;
      [|contradiction].
    pose proof (stream_error config domain0 e E) as Hnil.
    destruct (producer st); try exact Hs.
    - destruct Hs as [Hnone _]. discriminate.
    - rewrite Hnil in Hs. now destruct (units st). }
  split; [exact Hu|].
  destruct (trace st) as [|[i a] tr]; [reflexivity|].
  specialize (Ht i a (or_introl eq_refl)). rewrite Hu in Ht. simpl in Ht. lia.
Qed.

(** C7, amended: a failed request makes [getWaybackURLs] return the
    empty sequence with the error; a failed scan, which happens on a line
    of [MaxScanTokenSize] bytes or more, makes it return [ErrTooLong] with
    the lines before that line that are not empty, their carriage return
    dropped; and whenever [getWaybackURLs] returns an error, whatever URLs
    come with it, no unit is started and no record is sent in any
    reachable state, every run is bounded, some schedule closes the output
    channel, and a run can only halt with the channel closed. *)
Theorem index_failure_is_silent :
  (forall err,
      SimpleGet (indexReqURL (rewritten config domain0)) = inr err ->
      getWaybackURLs (rewritten config domain0) = ([], Some err)) /\
  (forall res,
      SimpleGet (indexReqURL (rewritten config domain0)) = inl res ->
      snd (getWaybackURLs (rewritten config domain0)) <> None ->
      exists lines run post,
        Body res = linesLF lines +:+ run +:+ post /\
        Forall fits lines /\
        allBytes notLF run = true /\ len run = MaxScanTokenSize /\
        getWaybackURLs (rewritten config domain0)
        = (List.filter nonEmpty (map dropCR lines), Some ErrTooLong)) /\
  (snd (getWaybackURLs (rewritten config domain0)) <> None ->
   forall st, reachable config domain0 st ->
     units st = [] /\ sent st = [] /\
     (forall cs st', exec config cs st = Some st' ->
                     length cs <= stepsLeft config domain0 st) /\
     (exists cs st', exec config cs st = Some st' /\ closed st') /\
     (halted config st -> closed st)).
Proof.
  split; [|split].
  - intros err. apply getWaybackURLs_transport_error.
  - intros res Hget. unfold getWaybackURLs. rewrite Hget.
    destruct (scanLines (Body res) EmptyString 0) as [tokens e] eqn:E.
    cbn [snd]. intros Herr.
    destruct (scan_failure_result (Body res)) as
      (lines & run & post & Hb & Hfit & Hrun & Hlen & Hscan);
      [now rewrite E|].
    exists lines, run, post. repeat split; try assumption.
    rewrite E in Hscan. now injection Hscan as -> ->.
  - intros Herr st Hr.
    destruct (failed_index_no_units st Herr Hr) as [Hu Ht].
    split; [exact Hu|]. split; [unfold sent; now rewrite Ht|].
    split; [|split].
    + intros cs st' Hexec.
      pose proof (exec_stepsLeft _ _ _ _ _ Hr Hexec). lia.
    + now apply (reachable_closes config domain0).
    + now apply (halted_closed config domain0).
Qed.

(** *** Closing of the output channel *)

Lemma barrier_passes st :
  reachable config domain0 st -> producer st = PClosed ->
  Forall (fun u => isDone u = true) (units st) ->
  exists st',
    exec config (repeat RunDispatcher (dispatcherSteps (dispatcher st))) st
    = Some st' /\ closed st'.
Proof.
  intros Hr Hp Hall. pose proof (reachable_Inv _ _ _ Hr) as [_ _ _ Hw _ _].
  assert (Hz : wg st = 0%Z).
  { rewrite Hw. clear -Hall. induction Hall as [|u us Hu _ IH]; [reflexivity|].
    unfold running in *. cbn [map]. rewrite list_sum_cons, Hu. simpl. exact IH. }
  destruct (dispatcher st) eqn:Hd; simpl.
  - unfold dstep. rewrite Hd, Hp. simpl. rewrite Hz. simpl.
    eexists. split; reflexivity.
  - unfold dstep. rewrite Hd, Hz. simpl. eexists. split; reflexivity.
  - exists st. now split.
Qed.

(** C8: whatever the fetches return, from every reachable state no run
    is longer than [stepsLeft]; as long as the output channel is open
    some goroutine can move, so a run can only halt with the channel
    closed, and some schedule closes it; once the producer has returned
    and all units have returned, the dispatcher alone closes it; and the
    channel is closed only after the producer and all units have
    returned, nothing moving afterwards. *)
Theorem output_channel_closes st :
  reachable config domain0 st ->
  (forall cs st', exec config cs st = Some st' ->
                  length cs <= stepsLeft config domain0 st) /\
  (~ closed st -> exists c st', step config c st = Some st') /\
  (halted config st -> closed st) /\
  (exists cs st', exec config cs st = Some st' /\ closed st') /\
  (producer st = PClosed ->
   Forall (fun u => isDone u = true) (units st) ->
   exists st',
     exec config (repeat RunDispatcher (dispatcherSteps (dispatcher st))) st
     = Some st' /\ closed st') /\
  (closed st ->
   producer st = PClosed /\
   Forall (fun u => isDone u = true) (units st) /\
   halted config st).
Proof.
  intros Hr. pose proof (reachable_Inv _ _ _ Hr) as HI.
  split; [|split; [|split; [|split; [|split]]]].
  - intros cs st' Hexec. pose proof (exec_stepsLeft _ _ _ _ _ Hr Hexec). lia.
  - now apply (progress config domain0).
  - now apply (halted_closed config domain0).
  - now apply (reachable_closes config domain0).
  - now apply barrier_passes.
  - now apply (closed_barrier config domain0).
Qed.

End RunClaims.

(** ** The sample archive *)

Module SampleFacts.

Import Sample.

Lemma run_reachable config cs :
  reachable (env := archive) config "example.com" (run config cs).
Proof.
  unfold run.
  destruct (exec config cs (init "example.com")) as [st|] eqn:E.
  - exact (exec_reachable config "example.com" cs _ st (reachable_init _ _) E).
  - apply reachable_init.
Qed.

Lemma finished_reachable :
  reachable (env := archive) everything "example.com" finished.
Proof. exact (run_reachable everything (schedule 2 6 6 3 1 6)). Qed.


Lemma finishedWithSubdomains_reachable :
  reachable (env := archive) withSubdomains "example.com"
            finishedWithSubdomains.
Proof. exact (run_reachable withSubdomains (schedule 1 0 1 1 1 1)). Qed.


(** The foreign sitemap that the robots file names is sent, although
    it is out of scope and was never checked. *)
Lemma extracted_urls_sent_unchecked_witness :
  Spec.IsInScope foreignSitemap "example.com" false = false /\
  In (expansion Robots foreignSitemap) (sent finished) /\
  In (0, ActSend (expansion Robots foreignSitemap)) (trace finished) /\
  (forall URL' d sub,
      In (0, ActScope URL' d sub) (trace finished) -> URL' = robotsTxt).
Proof.
  split; [reflexivity|].
  apply (extracted_urls_sent_unchecked (env := archive) everything
           "example.com" finished 0 robotsTxt Robots foreignSitemap).
  - exact finished_reachable.
  - reflexivity.
  - reflexivity.
  - reflexivity.
  - simpl. auto.
Defined.



(** A snapshot list made of the header row alone comes back as it is. *)
Lemma getWaybackSnapshots_parsed_witness :
  getWaybackSnapshots (env := archive) page = ([headerRow], None).
Proof.
  apply (getWaybackSnapshots_parsed (env := archive) page
           {| ContentLength := 26; Body := snapshotsBody |} [headerRow]).
  - reflexivity.
  - discriminate.
  - reflexivity.
Defined.


(** C6 fails as it is stated: the unit of a robots file that is not at
    the root of its host calls the robots expander, although the path of
    its URL is not [/robots.txt]. *)
Lemma robots_expander_below_root :
  reachable (env := archive) everything "example.com" finished /\
  units finished !! 1 = Some (UDone deepRobotsTxt) /\
  Spec.IsInScope deepRobotsTxt "example.com" false = true /\
  mediaURLRegex deepRobotsTxt = false /\
  ~ (In (1, ActRobots deepRobotsTxt) (trace finished) <->
     ParseWaybackRobots everything = true /\
     Spec.path deepRobotsTxt = "/robots.txt").
Proof.
  split; [exact finished_reachable|]. do 3 (split; [reflexivity|]).
  intros [H _]. assert (Hin : In (1, ActRobots deepRobotsTxt) (trace finished)).
  { simpl. do 12 right. left. reflexivity. }
  destruct (H Hin) as [_ Hpath]. discriminate.
Qed.

Lemma expander_choice_witness :
  In (1, ActRobots deepRobotsTxt) (trace finished) /\
  ~ In (1, ActSource "example.com" deepRobotsTxt) (trace finished).
Proof.
  destruct (expander_choice (env := archive) everything "example.com"
              finished 1 (UDone deepRobotsTxt))
    as (_ & Hrobots & _ & _ & Hnever & _).
  - exact finished_reachable.
  - reflexivity.
  - reflexivity.
  - reflexivity.
  - now left.
  - split.
    + apply Hrobots; [reflexivity | now split].
    + apply Hnever. reflexivity.
Defined.

(** C7 fails as it is stated: when the scan of the index stops on a line
    that is too long, [getWaybackURLs] returns the error together with the
    URL it had scanned before, not an empty sequence. *)
Lemma scan_failure_returns_scanned_urls :
  snd (getWaybackURLs (env := brokenIndex) "example.com") = Some ErrTooLong /\
  fst (getWaybackURLs (env := brokenIndex) "example.com") <> [].
Proof.
  assert (E : getWaybackURLs (env := brokenIndex) "example.com"
              = (["http://example.com/a"], Some ErrTooLong))
    by (vm_compute; reflexivity).
  rewrite E. split; [reflexivity | discriminate].
Qed.

Lemma index_failure_is_silent_witness :
  units (init "example.com") = [] /\ sent (init "example.com") = [] /\
  (exists cs st',
      exec (env := brokenIndex) everything cs (init "example.com") = Some st'
      /\ closed st') /\
  (exists lines run post,
      "http://example.com/a" +:+ String LF longLine
      = linesLF lines +:+ run +:+ post /\
      Forall fits lines /\
      allBytes notLF run = true /\ len run = MaxScanTokenSize /\
      getWaybackURLs (env := brokenIndex) "example.com"
      = (List.filter nonEmpty (map dropCR lines), Some ErrTooLong)).
Proof.
  destruct (index_failure_is_silent (env := brokenIndex) everything
              "example.com") as (_ & Hscan & H).
  destruct (H ltac:(vm_compute; discriminate) (init "example.com")
              (reachable_init _ _)) as (Hu & Hs & _ & Hc & _).
  split; [exact Hu|]. split; [exact Hs|]. split; [exact Hc|].
  apply (Hscan {| ContentLength := 65557;
                  Body := "http://example.com/a" +:+ String LF longLine |}).
  - reflexivity.
  - vm_compute. discriminate.
Defined.

Lemma output_channel_closes_witness :
  (halted (env := archive) everything finished -> closed finished) /\
  (closed finished ->
   producer finished = PClosed /\
   Forall (fun u => isDone u = true) (units finished) /\
   halted (env := archive) everything finished).
Proof.
  destruct (output_channel_closes (env := archive) everything "example.com"
              finished finished_reachable)
    as (_ & _ & Hh & _ & _ & Hb).
  exact (conj Hh Hb).
Defined.

Lemma scope_checks_read_rewritten_domain_witness :
  (units finishedWithSubdomains <> [] ->
   domain finishedWithSubdomains = "*.example.com") /\
  (forall i URL d sub,
      In (i, ActScope URL d sub) (trace finishedWithSubdomains) ->
      d = "*.example.com" /\ sub = true) /\
  (forall i d URL,
      In (i, ActSource d URL) (trace finishedWithSubdomains) ->
      d = "*.example.com").
Proof.
  apply (scope_checks_read_rewritten_domain (env := archive) withSubdomains
           "example.com" finishedWithSubdomains).
  - exact finishedWithSubdomains_reachable.
  - reflexivity.
Defined.

Lemma base_record_precedes_expansions_witness :
  (forall t1 i r t2,
      trace finished = t1 ++ (i, ActSend r) :: t2 ->
      exists u,
        units finished !! i = Some u /\
        Spec.IsInScope (unitURL u) "example.com" false = true /\
        (r = base (unitURL u) \/
         (exists k found, r = expansion k found) /\
         In (i, ActSend (base (unitURL u))) t1)) /\
  (forall i u r,
      units finished !! i = Some u ->
      Spec.IsInScope (unitURL u) "example.com" false = false ->
      ~ In (i, ActSend r) (trace finished)).
Proof.
  apply (base_record_precedes_expansions (env := archive) everything
           "example.com" finished).
  exact finished_reachable.
Defined.

End SampleFacts.
(** ** Whole runs *)

Section RunExtras.

Context {env : Environment}.
Variable config : Configuration.
Variable domain0 : string.

Lemma sends_loopActions k URL seen :
  scoped config domain0 URL = true ->
  sends (loopActions config domain0 k URL seen) = map (expansion k) seen.
Proof.
  intros Hs. unfold loopActions.
  induction seen as [|found seen IH]; [reflexivity|].
  cbn [flat_map map]. rewrite sends_app, IH, Hs. reflexivity.
Qed.

Lemma sends_unitActions URL :
  sends (unitActions config domain0 URL) = records config domain0 URL.
Proof.
  unfold unitActions, records. fold (scoped config domain0 URL).
  destruct (scoped config domain0 URL) eqn:Hs; [|reflexivity].
  destruct (selects config URL) as [k|]; [|reflexivity].
  change (sends (ActScope URL (rewritten config domain0) (IncludeSubdomains config)
                 :: ActSend (base URL) :: call (rewritten config domain0) k URL
                 :: loopActions config domain0 k URL
                      (expand config (rewritten config domain0) k URL)))
    with (base URL ::
          sends (call (rewritten config domain0) k URL
                 :: loopActions config domain0 k URL
                      (expand config (rewritten config domain0) k URL))).
  f_equal. destruct k; cbn [call]; apply (sends_loopActions _ URL _ Hs).
Qed.

Lemma expansion_inj k found k' found' :
  expansion k found = expansion k' found' -> k = k' /\ found = found'.
Proof.
  unfold expansion. intros [= Hs Hv]. split; [|exact Hv].
  destruct k, k'; try reflexivity; discriminate.
Qed.

Lemma unit_in_stream st i u :
  reachable config domain0 st -> units st !! i = Some u ->
  In (unitURL u) (stream config domain0).
Proof.
  intros Hr Hi. pose proof (reachable_Inv _ _ _ Hr) as HI.
  pose proof (inv_stream _ _ _ HI) as Hs.
  assert (Hin : In (unitURL u) (map unitURL (units st))).
  { apply in_map, list_elem_of_In, list_elem_of_lookup. eauto. }
  destruct (producer st).
  - rewrite Hs in Hi. destruct i; discriminate.
  - rewrite Hs in Hi. destruct i; discriminate.
  - destruct Hs as [_ <-]. apply in_or_app. now left.
  - now rewrite <- Hs.
Qed.

(** X8: at closure the records received are, up to their order, the
    records of the units of the URLs of the index, one unit for each URL;
    before closure they are part of them.  Hence what a run emits does not
    depend on the schedule. *)
Theorem records_at_closure st :
  reachable config domain0 st ->
  (closed st ->
   Permutation (sent st)
               (flat_map (records config domain0) (stream config domain0))) /\
  (exists more,
      Permutation (sent st ++ more)
                  (flat_map (records config domain0) (stream config domain0))) /\
  (forall st', reachable config domain0 st' -> closed st -> closed st' ->
               Permutation (sent st) (sent st') /\ units st = units st').
Proof.
  assert (Hclosed : forall st', reachable config domain0 st' -> closed st' ->
            Permutation (sent st')
              (flat_map (records config domain0) (stream config domain0))).
  { intros st' Hr' Hc.
    destruct (closed_stream config domain0 st' Hr' Hc) as (URLs & Hu & HURLs).
    rewrite (sent_units config domain0 st' Hr'), Hu, <- HURLs.
    rewrite flat_map_concat_map, map_map, <- flat_map_concat_map.
    rewrite (flat_map_ext_In _ (records config domain0)); [reflexivity|].
    intros URL _. simpl. apply sends_unitActions. }
  intros Hr. split; [|split].
  - now apply Hclosed.
  - destruct (reachable_closes config domain0 st Hr) as (cs & st' & Hexec & Hc).
    destruct (exec_trace config cs st st' Hexec) as [t Ht].
    exists (sends (map snd t)).
    rewrite <- (Hclosed st' (exec_reachable _ _ _ _ _ Hr Hexec) Hc).
    unfold sent. now rewrite Ht, map_app, sends_app.
  - intros st' Hr' Hc Hc'. split.
    + now rewrite (Hclosed st Hr Hc), (Hclosed st' Hr' Hc').
    + destruct (closed_stream config domain0 st Hr Hc) as (URLs & -> & ->).
      now destruct (closed_stream config domain0 st' Hr' Hc') as (URLs' & -> & ->).
Qed.

(** X9: the records of one unit reach the channel in the order of
    [records]: at every moment the records the unit has sent are the
    beginning of that list, and the whole list once the unit has returned. *)
Theorem unit_records_in_order st i u :
  reachable config domain0 st -> units st !! i = Some u ->
  exists rest,
    records config domain0 (unitURL u) = sends (proj i (trace st)) ++ rest /\
    (isDone u = true -> rest = []).
Proof.
  intros Hr Hi.
  destruct (reachable_unit config domain0 st i u Hr Hi) as (_ & Hproj & rest & Hrest).
  destruct (isDone u) eqn:Hd.
  - exists []. split; [|reflexivity].
    destruct u; try discriminate. simpl in Hproj.
    rewrite Hproj, app_nil_r. symmetry. apply sends_unitActions.
  - exists (sends rest). split; [|discriminate].
    now rewrite <- sends_unitActions, Hrest, sends_app.
Qed.

(** X10: the counter of the wait group is the number of units that have
    not returned; it is never negative, and it is zero only when every unit
    has returned. *)
Theorem wait_group_counts_running st :
  reachable config domain0 st ->
  wg st = Z.of_nat (running (units st)) /\ (0 <= wg st)%Z /\
  (wg st = 0%Z -> Forall (fun u => isDone u = true) (units st)).
Proof.
  intros Hr. pose proof (inv_wg _ _ _ (reachable_Inv _ _ _ Hr)) as Hw.
  split; [exact Hw|]. split; [lia|].
  intros Hz. apply running_zero. lia.
Qed.

(** X11: units are started for the non-empty URLs of the index, one for
    each and in the order of the index: the URLs of the units are the
    beginning of the stream, and the whole stream once the producer has
    returned. *)
Theorem units_follow_stream st :
  reachable config domain0 st ->
  exists rest,
    stream config domain0 = map unitURL (units st) ++ rest /\
    (producer st = PClosed -> rest = []).
Proof.
  intros Hr. pose proof (inv_stream _ _ _ (reachable_Inv _ _ _ Hr)) as Hs.
  destruct (producer st) as [| |results|].
  - exists (stream config domain0). rewrite Hs. split; [reflexivity | discriminate].
  - exists (stream config domain0). rewrite Hs. split; [reflexivity | discriminate].
  - destruct Hs as [_ Hs]. exists (List.filter nonEmpty results).
    split; [now symmetry | discriminate].
  - exists []. rewrite app_nil_r. split; [now symmetry | reflexivity].
Qed.

(** X12: every base record is a URL of the index that passed the scope
    check with the domain [Run] uses. *)
Theorem base_records_in_scope st r :
  reachable config domain0 st -> In r (sent st) -> Source r = Name ->
  In (Value r) (stream config domain0) /\
  IsInScope (Value r) (rewritten config domain0) (IncludeSubdomains config)
  = true.
Proof.
  intros Hr Hin Hsrc. unfold sent in Hin. apply In_sends in Hin.
  apply in_map_iff in Hin as ([i a] & Ha & Hin). simpl in Ha. subst a.
  destruct (trace_owner config domain0 st i _ Hr Hin) as (u & Hi & Hact).
  apply unitActions_send in Hact as [Hs [-> | (k & found & -> & _ & _)]].
  - split; [|exact Hs]. simpl. exact (unit_in_stream st i u Hr Hi).
  - destruct k; discriminate.
Qed.

(** X13: every expansion record comes from a unit whose URL is in scope
    and is no media URL, carries a value that the expander produced for
    that URL, and bears the suffix of that expander: the robots expander
    for a URL that matches [robotsURLsRegex] when [ParseWaybackRobots] is
    set, the source expander for a URL that does not match when
    [ParseWaybackSource] is set. *)
Theorem expansion_records_provenance st i k found :
  reachable config domain0 st ->
  In (i, ActSend (expansion k found)) (trace st) ->
  exists u,
    units st !! i = Some u /\
    IsInScope (unitURL u) (rewritten config domain0) (IncludeSubdomains config)
    = true /\
    mediaURLRegex (unitURL u) = false /\
    In found (expand config (rewritten config domain0) k (unitURL u)) /\
    match k with
    | Robots => ParseWaybackRobots config = true /\
                robotsURLsRegex (unitURL u) = true
    | Sources => ParseWaybackSource config = true /\
                 robotsURLsRegex (unitURL u) = false
    end.
Proof.
  intros Hr Hin.
  destruct (trace_owner config domain0 st i _ Hr Hin) as (u & Hi & Hact).
  exists u. split; [exact Hi|].
  apply unitActions_send in Hact as [Hs [Hb | (k' & found' & He & Hk & Hf)]].
  - exfalso. exact (expansion_not_base _ _ _ Hb).
  - apply expansion_inj in He as [<- <-]. split; [exact Hs|].
    destruct k.
    + apply selects_robots in Hk as (Hm & HR & Hre). auto.
    + apply selects_sources in Hk as (Hm & HS & Hre). auto.
Qed.

(** X14: without [IncludeSubdomains] the captured variable keeps the
    domain that [Run] was given, and every scope check gets that domain
    and the flag unset. *)
Theorem domain_kept_without_subdomains st :
  reachable config domain0 st -> IncludeSubdomains config = false ->
  domain st = domain0 /\
  (forall i URL d sub,
      In (i, ActScope URL d sub) (trace st) -> d = domain0 /\ sub = false).
Proof.
  intros Hr Hsub.
  assert (Hrw : rewritten config domain0 = domain0)
    by (unfold rewritten; now rewrite Hsub).
  split.
  - pose proof (inv_domain _ _ _ (reachable_Inv _ _ _ Hr)) as Hd.
    destruct (producer st); congruence.
  - intros i URL d sub Hin.
    destruct (trace_owner config domain0 st i _ Hr Hin) as (u & _ & Ha).
    apply unitActions_scope in Ha as (_ & -> & ->). now split.
Qed.

End RunExtras.

(** ** The further properties on the sample archives *)

Module ExtraFacts.

Import Sample.

Lemma getWaybackURLs_results_are_lines_witness :
  nonEmpty robotsTxt = true /\ allBytes notLF robotsTxt = true /\
  (len robotsTxt < MaxScanTokenSize)%N.
Proof.
  apply (getWaybackURLs_results_are_lines (env := archive) "example.com").
  vm_compute. now left.
Defined.

Lemma getWaybackURLs_round_trip_witness :
  getWaybackURLs (env := Listing.plainIndex) "example.com"
  = (Listing.lines, None).
Proof.
  apply (getWaybackURLs_round_trip (env := Listing.plainIndex) "example.com"
           {| ContentLength := 54;
              Body := joinLines Listing.lines +:+ String LF EmptyString |}).
  - reflexivity.
  - repeat constructor.
  - now right.
Defined.

Lemma getWaybackURLs_crlf_witness :
  getWaybackURLs (env := Listing.crlfIndex) "example.com"
  = ([robotsTxt; page], None).
Proof.
  apply (getWaybackURLs_crlf (env := Listing.crlfIndex) "example.com"
           {| ContentLength := 58; Body := linesCRLF Listing.linesWithBlank |}
           Listing.linesWithBlank).
  - reflexivity.
  - repeat constructor.
  - reflexivity.
Defined.

Lemma mediaURLRegex_ascii_iff_witness :
  mediaURLRegex logo = true <-> hasMediaExtension logo.
Proof. apply (mediaURLRegex_ascii_iff logo). reflexivity. Defined.

Lemma records_at_closure_witness :
  (closed finished ->
   Permutation (sent finished)
     (flat_map (records (env := archive) everything "example.com")
               (stream (env := archive) everything "example.com"))) /\
  (exists more,
      Permutation (sent finished ++ more)
        (flat_map (records (env := archive) everything "example.com")
                  (stream (env := archive) everything "example.com"))) /\
  (forall st',
      reachable (env := archive) everything "example.com" st' ->
      closed finished -> closed st' ->
      Permutation (sent finished) (sent st') /\ units finished = units st').
Proof.
  apply (records_at_closure (env := archive) everything "example.com" finished).
  exact SampleFacts.finished_reachable.
Defined.

Lemma unit_records_in_order_witness :
  exists rest,
    records (env := archive) everything "example.com" robotsTxt
    = sends (proj 0 (trace finished)) ++ rest /\
    (isDone (UDone robotsTxt) = true -> rest = []).
Proof.
  apply (unit_records_in_order (env := archive) everything "example.com"
           finished 0 (UDone robotsTxt)).
  - exact SampleFacts.finished_reachable.
  - reflexivity.
Defined.

Lemma wait_group_counts_running_witness :
  wg finished = Z.of_nat (running (units finished)) /\ (0 <= wg finished)%Z /\
  (wg finished = 0%Z -> Forall (fun u => isDone u = true) (units finished)).
Proof.
  apply (wait_group_counts_running (env := archive) everything "example.com").
  exact SampleFacts.finished_reachable.
Defined.

Lemma units_follow_stream_witness :
  exists rest,
    stream (env := archive) everything "example.com"
    = map unitURL (units finished) ++ rest /\
    (producer finished = PClosed -> rest = []).
Proof.
  apply (units_follow_stream (env := archive) everything "example.com").
  exact SampleFacts.finished_reachable.
Defined.

Lemma base_records_in_scope_witness :
  In page (stream (env := archive) everything "example.com") /\
  Spec.IsInScope page "example.com" false = true.
Proof.
  apply (base_records_in_scope (env := archive) everything "example.com"
           finished (base page)).
  - exact SampleFacts.finished_reachable.
  - vm_compute. tauto.
  - reflexivity.
Defined.

Lemma expansion_records_provenance_witness :
  exists u,
    units finished !! 4 = Some u /\
    Spec.IsInScope (unitURL u) "example.com" false = true /\
    mediaURLRegex (unitURL u) = false /\
    In "http://example.com/page2"
       (expand (env := archive) everything "example.com" Sources (unitURL u)) /\
    ParseWaybackSource everything = true /\
    robotsURLsRegex (unitURL u) = false.
Proof.
  apply (expansion_records_provenance (env := archive) everything
           "example.com" finished 4 Sources "http://example.com/page2").
  - exact SampleFacts.finished_reachable.
  - vm_compute. tauto.
Defined.

Lemma domain_kept_without_subdomains_witness :
  domain finished = "example.com" /\
  (forall i URL d sub,
      In (i, ActScope URL d sub) (trace finished) ->
      d = "example.com" /\ sub = false).
Proof.
  apply (domain_kept_without_subdomains (env := archive) everything
           "example.com" finished).
  - exact SampleFacts.finished_reachable.
  - reflexivity.
Defined.

End ExtraFacts.
